(** * Chemfiles: the GRO format adapter and the selection parser

    Shallow embedding of [src/src/formats/GRO.cpp] (reading, writing and the
    step index built when a GRO file is opened), of the parts of [Frame] it
    uses ([src/include/chemfiles/Frame.hpp]) and of the boolean and index
    clauses of the selection parser and of the printer of their ASTs
    ([src/unnamed/part_002]), and of the error handling of the C API
    ([src/unnamed/part_001]). *)

From Stdlib Require Import String Ascii List NArith ZArith QArith Qround Bool Lia Sorted.
Import ListNotations.

Local Close Scope Q_scope.
Local Open Scope nat_scope.
Local Open Scope string_scope.

(** ** Primitives the translated code calls but does not define

    Doubles and their arithmetic, the [fmt] fixed-point formatter, and the
    chemfiles utilities [parse<double>], [parse<size_t>], [split] and
    [trim] (utils.cpp) are not part of the translated files.  Every
    definition and theorem below is generic over them; [ndebug] tells whether
    [assert] is compiled out.  The number type is a class of its own, so
    that the data (frames, tokens) depend on it alone. *)
Class Num := { dbl : Type }.

Class Env `{Num} := {
  d0 : dbl;
  d10 : dbl;
  dmul : dbl -> dbl -> dbl;
  ddiv : dbl -> dbl -> dbl;
  dltb : dbl -> dbl -> bool;
  deqb : dbl -> dbl -> bool;
  dof_Z : Z -> dbl;
  dceil : dbl -> dbl;
  dto_size : dbl -> N;
  fmt_fixed : nat -> nat -> dbl -> string;
  parse_double : string -> option dbl;
  parse_size : string -> option N;
  split : string -> ascii -> list string;
  trim : string -> string;
  ndebug : bool
}.

(** ** Strings *)

Fixpoint spaces (n : nat) : string :=
  match n with O => "" | S n' => String " " (spaces n') end.

(** [fmt::format("{: >w}", s)]: right-aligned, never truncated. *)
Definition pad_left (w : nat) (s : string) : string :=
  spaces (w - String.length s) ++ s.

(** [fmt::format("{: <w}", s)]: left-aligned, never truncated. *)
Definition pad_right (w : nat) (s : string) : string :=
  s ++ spaces (w - String.length s).

Fixpoint string_of_N_aux (fuel : nat) (n : N) (acc : string) : string :=
  match fuel with
  | O => acc
  | S fuel' =>
      let acc' := String (ascii_of_N (48 + N.modulo n 10)) acc in
      if (n <? 10)%N then acc' else string_of_N_aux fuel' (N.div n 10) acc'
  end.

(** [std::to_string] on an unsigned integer. *)
Definition string_of_N (n : N) : string :=
  string_of_N_aux (S (N.size_nat n)) n "".

Definition SIZE_MAX : N := (2 ^ 64 - 1)%N.

(** ** Errors and the state/error monad *)

Inductive Error :=
| FileError (msg : string)
| FormatError (msg : string)
| GenericError (msg : string)
| AssertionFailure.

Definition what (e : Error) : string :=
  match e with
  | FileError m | FormatError m | GenericError m => m
  | AssertionFailure => "assertion failed"
  end.

Inductive result (A : Type) :=
| Ok (a : A)
| Err (e : Error).
Arguments Ok {A} a.
Arguments Err {A} e.

(** A computation over a state [S] that may throw; the state reached when an
    exception is thrown is kept, as C++ keeps the effects done before a
    [throw]. *)
Definition M (S A : Type) : Type := S -> result A * S.

Definition ret {S A} (a : A) : M S A := fun s => (Ok a, s).

Definition bind {S A B} (m : M S A) (k : A -> M S B) : M S B :=
  fun s => match m s with
           | (Ok a, s') => k a s'
           | (Err e, s') => (Err e, s')
           end.

Definition throw {S A} (e : Error) : M S A := fun s => (Err e, s).

(** [try { m } catch (const Error& e) { h(e) }] *)
Definition catch {S A} (m : M S A) (h : Error -> M S A) : M S A :=
  fun s => match m s with
           | (Err e, s') => h e s'
           | r => r
           end.

(** [try { m } catch (const FileError& e) { h(e) }] *)
Definition catch_file {S A} (m : M S A) (h : string -> M S A) : M S A :=
  fun s => match m s with
           | (Err (FileError msg), s') => h msg s'
           | r => r
           end.

Definition get {S} : M S S := fun s => (Ok s, s).
Definition put {S} (s : S) : M S unit := fun _ => (Ok tt, s).
Definition modify {S} (g : S -> S) : M S unit := fun s => (Ok tt, g s).

Notation "x <- m ;; k" := (bind m (fun x => k))
  (at level 61, m at next level, right associativity).
Notation "m ;;; k" := (bind m (fun _ => k))
  (at level 61, right associativity).

Fixpoint mfold {S A B} (f : A -> B -> M S A) (a : A) (l : list B) : M S A :=
  match l with
  | [] => ret a
  | b :: l' => a' <- f a b ;; mfold f a' l'
  end.

Section Model.
Context `{E : Env}.

(** ** Data model *)

Definition Vector3D : Type := (dbl * dbl * dbl)%type.
Definition vzero : Vector3D := (d0, d0, d0).

(** [Vector3D / double], component-wise. *)
Definition vdiv (v : Vector3D) (k : dbl) : Vector3D :=
  let '(x, y, z) := v in (ddiv x k, ddiv y k, ddiv z k).

(** Rows of a 3x3 matrix. *)
Definition Matrix3D : Type := (Vector3D * Vector3D * Vector3D)%type.

Record Atom := mkAtom { atom_name : string }.

Record Residue := mkResidue {
  res_name : string;
  res_id : option N;
  res_atoms : list N
}.

(** Modelled from the spec: UnitCell (UnitCell.hpp/.cpp are missing); a cell
    is infinite, orthorhombic given by its three lengths, or triclinic given
    by its upper-triangular matrix; we keep the constructor arguments. *)
Inductive UnitCell :=
| CellInfinite
| CellLengths (a b c : dbl)
| CellMatrix (h : Matrix3D).

Inductive CellShape := INFINITE | ORTHORHOMBIC | TRICLINIC.

Definition cell_shape (c : UnitCell) : CellShape :=
  match c with
  | CellInfinite => INFINITE
  | CellLengths _ _ _ => ORTHORHOMBIC
  | CellMatrix _ => TRICLINIC
  end.

Definition cell_lengths (c : UnitCell) : Vector3D :=
  match c with
  | CellLengths a b c => (a, b, c)
  | CellMatrix ((a, _, _), (_, b, _), (_, _, c)) => (a, b, c)
  | CellInfinite => vzero
  end.

Definition cell_matrix (c : UnitCell) : Matrix3D :=
  match c with
  | CellMatrix h => h
  | CellLengths a b c => ((a, d0, d0), (d0, b, d0), (d0, d0, c))
  | CellInfinite => (vzero, vzero, vzero)
  end.

Inductive Property :=
| PBool (b : bool)
| PDouble (d : dbl)
| PString (s : string)
| PVector (v : Vector3D).

Record Frame := mkFrame {
  f_step : N;
  f_positions : list Vector3D;
  f_velocities : option (list Vector3D);
  f_atoms : list Atom;
  f_residues : list Residue;
  f_bonds : list (N * N);
  f_cell : UnitCell;
  f_properties : list (string * Property)
}.

Definition empty_frame : Frame :=
  mkFrame 0 [] None [] [] [] CellInfinite [].

Definition frame_size (f : Frame) : nat := length (f_positions f).

(** Modelled from the spec: the bodies of the Frame member functions declared
    in Frame.hpp (Frame.cpp is missing), following the spec's lifecycle and
    the doc comments of Frame.hpp. *)
Definition frame_set (name : string) (v : Property) (f : Frame) : Frame :=
  mkFrame (f_step f) (f_positions f) (f_velocities f) (f_atoms f)
    (f_residues f) (f_bonds f) (f_cell f)
    ((name, v) :: filter (fun kv => negb (String.eqb (fst kv) name))
                    (f_properties f)).

Definition frame_get (name : string) (f : Frame) : option Property :=
  option_map snd (find (fun kv => String.eqb (fst kv) name) (f_properties f)).

(** "If velocities are already defined, this functions does nothing. The new
    velocities are initialized to 0." *)
Definition frame_add_velocities (f : Frame) : Frame :=
  match f_velocities f with
  | Some _ => f
  | None =>
      mkFrame (f_step f) (f_positions f)
        (Some (repeat vzero (length (f_positions f))))
        (f_atoms f) (f_residues f) (f_bonds f) (f_cell f) (f_properties f)
  end.

Definition resize_list {A} (n : nat) (dflt : A) (l : list A) : list A :=
  (firstn n l ++ repeat dflt (n - length l))%list.

(** Truncate or zero-pad; atoms, residues and bonds that refer to removed
    atoms are dropped. *)
Definition frame_resize (n : nat) (f : Frame) : Frame :=
  let keep i := (i <? N.of_nat n)%N in
  mkFrame (f_step f)
    (resize_list n vzero (f_positions f))
    (option_map (resize_list n vzero) (f_velocities f))
    (resize_list n (mkAtom "") (f_atoms f))
    (filter (fun r => forallb keep (res_atoms r)) (f_residues f))
    (filter (fun b => keep (fst b) && keep (snd b)) (f_bonds f))
    (f_cell f) (f_properties f).

(** "The [velocity] value will only be used if this frame contains velocity
    data." *)
Definition frame_add_atom (a : Atom) (p v : Vector3D) (f : Frame) : Frame :=
  mkFrame (f_step f) (f_positions f ++ [p])%list
    (option_map (fun vs => vs ++ [v])%list (f_velocities f))
    (f_atoms f ++ [a])%list (f_residues f) (f_bonds f) (f_cell f) (f_properties f).

Definition frame_add_residue (r : Residue) (f : Frame) : Frame :=
  mkFrame (f_step f) (f_positions f) (f_velocities f) (f_atoms f)
    (f_residues f ++ [r])%list (f_bonds f) (f_cell f) (f_properties f).

(** [Frame::set_cell] (inline in Frame.hpp). *)
Definition frame_set_cell (c : UnitCell) (f : Frame) : Frame :=
  mkFrame (f_step f) (f_positions f) (f_velocities f) (f_atoms f)
    (f_residues f) (f_bonds f) c (f_properties f).

Definition frame_set_step (s : N) (f : Frame) : Frame :=
  mkFrame s (f_positions f) (f_velocities f) (f_atoms f)
    (f_residues f) (f_bonds f) (f_cell f) (f_properties f).

(** [Residue::add_atom]: the atoms of a residue are a sorted set. *)
Fixpoint set_insert (i : N) (l : list N) : list N :=
  match l with
  | [] => [i]
  | j :: l' => if (i =? j)%N then l
               else if (i <? j)%N then i :: l else j :: set_insert i l'
  end.

Definition residue_add_atom (r : Residue) (i : N) : Residue :=
  mkResidue (res_name r) (res_id r) (set_insert i (res_atoms r)).

(** ** Text files

    A text file is its list of lines and the index of the next line to read;
    a stream position ([tellg]) is the index of a line start. *)
Record TextFile := mkTextFile {
  tf_lines : list string;
  tf_pos : nat;
  tf_eof : bool
}.

Definition readline : M TextFile string :=
  fun tf => match nth_error (tf_lines tf) (tf_pos tf) with
            | Some l => (Ok l, mkTextFile (tf_lines tf) (S (tf_pos tf)) false)
            | None => (Err (FileError "can not read line: end of file"),
                       mkTextFile (tf_lines tf) (tf_pos tf) true)
            end.

Definition readlines (n : N) : M TextFile (list string) :=
  fun tf => if (N.of_nat (tf_pos tf) + n <=? N.of_nat (length (tf_lines tf)))%N
            then (Ok (firstn (N.to_nat n) (skipn (tf_pos tf) (tf_lines tf))),
                  mkTextFile (tf_lines tf) (tf_pos tf + N.to_nat n) false)
            else (Err (FileError "can not read lines: end of file"),
                  mkTextFile (tf_lines tf) (length (tf_lines tf)) true).

(** [seekg] clears the end-of-file flag. *)
Definition seekg (p : nat) (tf : TextFile) : TextFile :=
  mkTextFile (tf_lines tf) p false.

Definition rewind (tf : TextFile) : TextFile := seekg 0 tf.

Definition open_text (lines : list string) : TextFile :=
  mkTextFile lines 0 false.

Definition parse_size_m {S} (s : string) : M S N :=
  match parse_size s with
  | Some n => ret n
  | None => throw (GenericError ("can not parse '" ++ s ++ "' as an integer"))
  end.

Definition parse_double_m {S} (s : string) : M S dbl :=
  match parse_double s with
  | Some d => ret d
  | None => throw (GenericError ("can not parse '" ++ s ++ "' as a double"))
  end.

(** ** GROFormat::read *)

(** The state of [GROFormat::read]: the frame passed by reference and the
    format's file. *)
Definition GSt : Type := (Frame * TextFile)%type.

Definition on_file {A} (m : M TextFile A) : M GSt A :=
  fun s => let '(r, tf') := m (snd s) in (r, (fst s, tf')).

Definition modify_frame (g : Frame -> Frame) : M GSt unit :=
  modify (fun s => (g (fst s), snd s)).

Definition get_frame : M GSt Frame := fun s => (Ok (fst s), s).

(** [residues_.insert] / [residues_.at(resid).add_atom]: [residues_] is a
    [std::map<size_t, Residue>], kept sorted by key. *)
Fixpoint residues_add (resid : N) (resname : string) (i : N)
    (m : list (N * Residue)) : list (N * Residue) :=
  match m with
  | [] => [(resid, mkResidue resname (Some resid) [i])]
  | (k, r) :: m' =>
      if (resid =? k)%N then (k, residue_add_atom r i) :: m'
      else if (resid <? k)%N then (resid, mkResidue resname (Some resid) [i]) :: m
      else (k, r) :: residues_add resid resname i m'
  end.

(** One iteration of the loop over the atom lines. *)
Definition gro_read_atom (residues : list (N * Residue)) (line : string)
    : M GSt (list (N * Residue)) :=
  if Nat.ltb (String.length line) 44 then
    throw (FormatError ("GRO Atom line is too small: '" ++ line ++ "'"))
  else
    let resid := match parse_size (substring 0 5 line) with
                 | Some r => r
                 | None => SIZE_MAX
                 end in
    let resname := trim (substring 5 5 line) in
    let name := trim (substring 10 5 line) in
    x <- parse_double_m (substring 20 8 line) ;;
    y <- parse_double_m (substring 28 8 line) ;;
    z <- parse_double_m (substring 36 8 line) ;;
    let pos := (dmul x d10, dmul y d10, dmul z d10) in
    (if Nat.leb 68 (String.length line) then
       vx <- parse_double_m (substring 44 8 line) ;;
       vy <- parse_double_m (substring 52 8 line) ;;
       vz <- parse_double_m (substring 60 8 line) ;;
       modify_frame (frame_add_atom (mkAtom name) pos
                       (dmul vx d10, dmul vy d10, dmul vz d10))
     else modify_frame (frame_add_atom (mkAtom name) pos vzero)) ;;;
    f <- get_frame ;;
    if (resid =? SIZE_MAX)%N then ret residues
    else ret (residues_add resid resname (N.of_nat (frame_size f) - 1) residues).

(** [assert(parse<double>(v) == 0)]. *)
Definition gro_assert_zero (s : string) : M GSt unit :=
  if ndebug then ret tt
  else v <- parse_double_m s ;;
       if deqb v d0 then ret tt else throw AssertionFailure.

(** The box line. *)
Definition gro_read_box (box_values : list string) : M GSt unit :=
  match box_values with
  | [s0; s1; s2] =>
      a <- parse_double_m s0 ;;
      b <- parse_double_m s1 ;;
      c <- parse_double_m s2 ;;
      modify_frame (frame_set_cell
        (CellLengths (dmul a d10) (dmul b d10) (dmul c d10)))
  | [s0; s1; s2; s3; s4; s5; s6; s7; s8] =>
      v1_x <- parse_double_m s0 ;;
      v2_y <- parse_double_m s1 ;;
      v3_z <- parse_double_m s2 ;;
      gro_assert_zero s3 ;;;
      gro_assert_zero s4 ;;;
      v2_x <- parse_double_m s5 ;;
      gro_assert_zero s6 ;;;
      v3_x <- parse_double_m s7 ;;
      v3_y <- parse_double_m s8 ;;
      modify_frame (frame_set_cell (CellMatrix
        ((dmul v1_x d10, dmul v2_x d10, dmul v3_x d10),
         (d0, dmul v2_y d10, dmul v3_y d10),
         (d0, d0, dmul v3_z d10))))
  | _ => ret tt
  end.

(** [GROFormat::read(Frame&)].  [frame.reserve] has no observable effect and
    is omitted; [residues_] is cleared on entry, so it is a local here. *)
Definition gro_read : M GSt unit :=
  natoms <- catch
    (title <- on_file readline ;;
     modify_frame (frame_set "name" (PString title)) ;;;
     l <- on_file readline ;;
     parse_size_m l)
    (fun e => throw (FormatError ("can not read next step as GRO: " ++ what e))) ;;
  modify_frame frame_add_velocities ;;;
  modify_frame (frame_resize 0) ;;;
  lines <- on_file (readlines natoms) ;;
  residues <- mfold gro_read_atom [] lines ;;
  box <- on_file readline ;;
  gro_read_box (split box " "%char) ;;;
  modify_frame (fun f => fold_left (fun f r => frame_add_residue (snd r) f)
                           residues f).

(** ** Opening a GRO file: the step index *)

(** [forward]: fast-forward one step.  [natoms + 1] is computed on [size_t]. *)
Definition forward : M TextFile bool :=
  tf <- get ;;
  if tf_eof tf then ret false
  else
    r <- catch (_ <- readline ;;
                l <- readline ;;
                n <- parse_size_m l ;;
                ret (Some n))
               (fun _ => ret None) ;;
    match r with
    | None => ret false
    | Some natoms =>
        catch_file (readlines (N.modulo (natoms + 1) (2 ^ 64)) ;;; ret true)
          (fun _ => throw (FormatError "not enough lines in file for GRO format"))
    end.

(** The loop of the constructor: [while (!file_->eof())]; every round reads
    at least one line or reaches the end of the file, so [length + 2] rounds
    always suffice. *)
Fixpoint gro_scan (fuel : nat) : M TextFile (list nat) :=
  match fuel with
  | O => throw (GenericError "unreachable: scan out of rounds")
  | S fuel' =>
      tf <- get ;;
      if tf_eof tf then ret []
      else
        let position := tf_pos tf in
        found <- forward ;;
        rest <- gro_scan fuel' ;;
        ret (if found then position :: rest else rest)
  end.

Record GROFormat := mkGRO {
  gro_file : TextFile;
  steps_positions : list nat
}.

(** [GROFormat::GROFormat]: scan, then [rewind].  The file is given by its
    lines: [TextFile::open] has succeeded and no read hits an IO error, so
    the constructor's ["IO error while reading"] branch is not modelled. *)
Definition gro_open (lines : list string) : result GROFormat :=
  match gro_scan (S (S (length lines))) (open_text lines) with
  | (Ok ps, tf) => Ok (mkGRO (rewind tf) ps)
  | (Err e, _) => Err e
  end.

Definition gro_nsteps (g : GROFormat) : nat := length (steps_positions g).

(** [GROFormat::read_step]: [assert(step < steps_positions_.size())], then
    seek and delegate to [read].  An out-of-range step aborts on the
    assertion (it is undefined behaviour when assertions are compiled out). *)
Definition gro_read_step (step : nat) (g : GROFormat) (f : Frame)
    : result unit * Frame * GROFormat :=
  match nth_error (steps_positions g) step with
  | None => (Err AssertionFailure, f, g)
  | Some p =>
      let '(r, (f', tf')) := gro_read (f, seekg p (gro_file g)) in
      (r, f', mkGRO tf' (steps_positions g))
  end.

(** [n + 1] successive calls to [read] from the file state [tf], each on a
    copy of [f0]; the frames read, or the first error. *)
Fixpoint gro_read_seq (n : nat) (f0 : Frame) (tf : TextFile)
    : result (list Frame) :=
  match gro_read (f0, tf) with
  | (Err e, _) => Err e
  | (Ok _, (f, tf')) =>
      match n with
      | O => Ok [f]
      | S n' => match gro_read_seq n' f0 tf' with
                | Ok fs => Ok (f :: fs)
                | Err e => Err e
                end
      end
  end.

(** ** Trajectory *)

(** Modelled from the spec: [Trajectory::read_step] (Trajectory.cpp is
    missing).  "[read_step(i)]: reads step [i], sets [step_index = i+1].
    Error if [i >= nsteps()]"; the frame read gets [step = i]. *)
Record Trajectory := mkTrajectory {
  traj_format : GROFormat;
  traj_step_index : nat
}.

Definition traj_nsteps (t : Trajectory) : nat := gro_nsteps (traj_format t).

Definition traj_read_step (i : nat) (t : Trajectory) : result Frame * Trajectory :=
  if Nat.leb (traj_nsteps t) i then
    (Err (FileError "can not read file at this step: out of range"), t)
  else
    match gro_read_step i (traj_format t) empty_frame with
    | (Ok _, f, g) => (Ok (frame_set_step (N.of_nat i) f), mkTrajectory g (S i))
    | (Err e, _, g) => (Err e, mkTrajectory g (traj_step_index t))
    end.

(** ** GROFormat::write *)

(** The state of [GROFormat::write]: the lines written by this call and the
    warnings sent to the [warning] sink, in order. *)
Definition WSt : Type := (list string * list string)%type.

Definition emit (line : string) : M WSt unit :=
  modify (fun s => ((fst s ++ [line])%list, snd s)).

Definition warning (msg : string) : M WSt unit :=
  modify (fun s => (fst s, (snd s ++ [msg])%list)).

Definition to_gro_index (i : N) : M WSt string :=
  if (99999 <=? i)%N then
    warning "Too many atoms for GRO format, removing atomic id" ;;;
    ret "*****"
  else ret (string_of_N (i + 1)).

(** [check_values_size]; [std::pow(10.0, width) - 1] and
    [-std::pow(10.0, width - 1) + 1] are exact integers in double. *)
Definition check_values_size (v : Vector3D) (width : nat) (context : string)
    : M WSt unit :=
  let max_pos := dof_Z (10 ^ Z.of_nat width - 1) in
  let max_neg := dof_Z (- 10 ^ (Z.of_nat width - 1) + 1) in
  let '(a, b, c) := v in
  if dltb max_pos a || dltb max_pos b || dltb max_pos c ||
     dltb a max_neg || dltb b max_neg || dltb c max_neg
  then throw (FormatError ("value in " ++ context ++
                           " is too big for representation in GRO format"))
  else ret tt.

(** The [max_resid] loop; [resid.value() + 1] is computed on [uint64_t]. *)
Definition gro_max_resid (residues : list Residue) : N :=
  fold_left (fun m r => match res_id r with
                        | Some v => if (m <? v)%N then N.modulo (v + 1) (2 ^ 64) else m
                        | None => m
                        end) residues 1%N.

(** Modelled from the spec: [Topology::residue_for_atom] (Topology.cpp is
    missing): the residue containing the atom, if any. *)
Definition residue_for_atom (i : N) (residues : list Residue) : option Residue :=
  find (fun r => existsb (N.eqb i) (res_atoms r)) residues.

Definition gro_resname (residue : option Residue) : M WSt string :=
  match residue with
  | Some r =>
      if Nat.ltb 5 (String.length (res_name r)) then
        warning ("Residue '" ++ res_name r ++
                 "' has a name too long for GRO format, it will be truncated.") ;;;
        ret (substring 0 5 (res_name r))
      else ret (res_name r)
  | None => ret "XXXXX"
  end.

(** The resid column and the next value of [max_resid]. *)
Definition gro_resid (residue : option Residue) (max_resid : N)
    : M WSt (string * N) :=
  match option_map res_id residue with
  | Some (Some value) =>
      if (value <=? 99999)%N then ret (string_of_N value, max_resid)
      else warning "Too many residues for GRO format, removing residue id" ;;;
           ret ("-1", max_resid)
  | _ =>
      let value := max_resid in
      let max_resid' := N.modulo (max_resid + 1) (2 ^ 64) in
      if (value <=? 99999)%N then ret (string_of_N value, max_resid')
      else ret ("-1", max_resid')
  end.

Definition fmt_vec (prec : nat) (v : Vector3D) : string :=
  let '(x, y, z) := v in
  fmt_fixed 8 prec x ++ fmt_fixed 8 prec y ++ fmt_fixed 8 prec z.

(** One iteration of the loop over the atoms ([assert(resname.length() <= 5)]
    holds by construction of [gro_resname]). *)
Definition gro_write_atom (f : Frame) (max_resid : N) (i : nat) : M WSt N :=
  let residue := residue_for_atom (N.of_nat i) (f_residues f) in
  resname <- gro_resname residue ;;
  rm <- gro_resid residue max_resid ;;
  let '(resid, max_resid') := rm in
  let name := atom_name (nth i (f_atoms f) (mkAtom "")) in
  let pos := vdiv (nth i (f_positions f) vzero) d10 in
  check_values_size pos 8 "atomic position" ;;;
  match f_velocities f with
  | Some vs =>
      let vel := vdiv (nth i vs vzero) d10 in
      check_values_size vel 8 "atomic velocity" ;;;
      idx <- to_gro_index (N.of_nat i) ;;
      emit (pad_left 5 resid ++ pad_right 5 resname ++ pad_left 5 name ++
            pad_left 5 idx ++ fmt_vec 3 pos ++ fmt_vec 4 vel) ;;;
      ret max_resid'
  | None =>
      idx <- to_gro_index (N.of_nat i) ;;
      emit (pad_left 5 resid ++ pad_right 5 resname ++ pad_left 5 name ++
            pad_left 5 idx ++ fmt_vec 3 pos) ;;;
      ret max_resid'
  end.

Definition gro_write_box (c : UnitCell) : M WSt unit :=
  match cell_shape c with
  | ORTHORHOMBIC | INFINITE =>
      let '(a, b, cc) := vdiv (cell_lengths c) d10 in
      check_values_size (a, b, cc) 8 "Unit Cell" ;;;
      emit ("  " ++ fmt_fixed 8 5 a ++ "  " ++ fmt_fixed 8 5 b ++ "  " ++
            fmt_fixed 8 5 cc)
  | TRICLINIC =>
      let '(r0, r1, r2) := cell_matrix c in
      let '(m00, m01, m02) := vdiv r0 d10 in
      let '(_, m11, m12) := vdiv r1 d10 in
      let '(_, _, m22) := vdiv r2 d10 in
      check_values_size (m00, m11, m22) 8 "Unit Cell" ;;;
      check_values_size (m01, m02, m12) 8 "Unit Cell" ;;;
      emit ("  " ++ fmt_fixed 8 5 m00 ++ "  " ++ fmt_fixed 8 5 m11 ++ "  " ++
            fmt_fixed 8 5 m22 ++ " 0.0 0.0  " ++ fmt_fixed 8 5 m01 ++
            " 0.0  " ++ fmt_fixed 8 5 m02 ++ "  " ++ fmt_fixed 8 5 m12)
  end.

(** The title: the frame's [name] property when it is a string. *)
Definition gro_title (f : Frame) : string :=
  match frame_get "name" f with
  | Some (PString s) => s
  | _ => "GRO File produced by chemfiles"
  end.

(** [GROFormat::write(const Frame&)]; the final [steps_positions_.push_back]
    only records where the next step starts and is left out. *)
Definition gro_write (f : Frame) : M WSt unit :=
  emit (gro_title f) ;;;
  emit (pad_left 5 (string_of_N (N.of_nat (frame_size f)))) ;;;
  _ <- mfold (gro_write_atom f) (gro_max_resid (f_residues f))
             (seq 0 (frame_size f)) ;;
  gro_write_box (f_cell f).

(** ** The selection parser *)

Inductive TokenType :=
| LPAREN | RPAREN | EQ | NEQ | LT | LE | GT | GE | NOT | AND | OR | IDENT | NUM.

Inductive Token :=
| TOp (ty : TokenType)
| TIdent (s : string)
| TNum (x : dbl).

Definition token_type (t : Token) : TokenType :=
  match t with TOp ty => ty | TIdent _ => IDENT | TNum _ => NUM end.

Definition is_binary_op (t : Token) : bool :=
  match token_type t with EQ | NEQ | LT | LE | GT | GE => true | _ => false end.

Definition is_ident (name : string) (t : Token) : bool :=
  match t with TIdent s => String.eqb s name | _ => false end.

Inductive BinOp := OpEQ | OpNEQ | OpLT | OpLE | OpGT | OpGE.

(** [BinOp(begin->type())]. *)
Definition binop_of (t : Token) : BinOp :=
  match token_type t with
  | NEQ => OpNEQ | LT => OpLT | LE => OpLE | GT => OpGT | GE => OpGE | _ => OpEQ
  end.

Inductive Expr :=
| NameExpr (name : string) (equals : bool)
| IndexExpr (op : BinOp) (val : N)
| AndExpr (lhs rhs : Expr)
| OrExpr (lhs rhs : Expr)
| NotExpr (ast : Expr).

(** [ParserError] carries the message it is built from; [Abort] is a failed
    [assert] or a [std::runtime_error], which the parsers do not catch. *)
Inductive PError :=
| ParserError (msg : string)
| Abort.

(** A parse either fails, or returns the AST and the tokens after the new
    position of [begin]; [begin == end] is "no token left". *)
Inductive presult :=
| POk (ast : Expr) (rest : list Token)
| PErr (e : PError).

(** [parse<IndexExpr>]: the tokens come in reverse order, [op value index]. *)
Definition parse_index (toks : list Token) : presult :=
  match toks with
  | t0 :: t1 :: t2 :: rest =>
      if negb (is_ident "index" t2 && is_binary_op t0) then PErr Abort
      else
        match t1 with
        | TNum num =>
            if negb (deqb (dceil num) num)
            then PErr (ParserError "Index selection should contain an integer")
            else POk (IndexExpr (binop_of t0) (dto_size num)) rest
        | _ => PErr (ParserError "Index selection should contain an integer")
        end
  | _ => PErr Abort
  end.

(** [parse<NameExpr>]. *)
Definition parse_name (toks : list Token) : presult :=
  match toks with
  | t0 :: t1 :: t2 :: rest =>
      if negb (is_ident "name" t2) then PErr Abort
      else
        match t1, token_type t0 with
        | TIdent name, EQ => POk (NameExpr name true) rest
        | TIdent name, NEQ => POk (NameExpr name false) rest
        | _, _ => PErr (ParserError
            "Name selection must follow the pattern: 'name == {name} | name != {name}'")
        end
  | _ => PErr Abort
  end.

Section Boolean.
(** [dispatch_parsing] is declared in the missing parser.hpp; the boolean
    parsers are translated for any of its implementations. *)
Variable dispatch_parsing : list Token -> presult.

(** [parse<AndExpr>]. *)
Definition parse_and (toks : list Token) : presult :=
  match toks with
  | TOp AND :: rest =>
      match rest with
      | [] => PErr (ParserError "Missing right-hand side operand to 'and'")
      | _ =>
          match dispatch_parsing rest with
          | PErr (ParserError m) =>
              PErr (ParserError ("Error in right-hand side operand to 'and': " ++ m))
          | PErr e => PErr e
          | POk rhs rest' =>
              match rest' with
              | [] => PErr (ParserError "Missing left-hand side operand to 'and'")
              | _ =>
                  match dispatch_parsing rest' with
                  | PErr (ParserError m) =>
                      PErr (ParserError ("Error in left-hand side operand to 'and': " ++ m))
                  | PErr e => PErr e
                  | POk lhs rest'' => POk (AndExpr lhs rhs) rest''
                  end
              end
          end
      end
  | _ => PErr Abort
  end.

(** [parse<OrExpr>]. *)
Definition parse_or (toks : list Token) : presult :=
  match toks with
  | TOp OR :: rest =>
      match rest with
      | [] => PErr (ParserError "Missing right-hand side operand to 'or'")
      | _ =>
          match dispatch_parsing rest with
          | PErr (ParserError m) =>
              PErr (ParserError ("Error in right-hand side operand to 'or': " ++ m))
          | PErr e => PErr e
          | POk rhs rest' =>
              match rest' with
              | [] => PErr (ParserError "Missing left-hand side operand to 'or'")
              | _ =>
                  match dispatch_parsing rest' with
                  | PErr (ParserError m) =>
                      PErr (ParserError ("Error in left-hand side operand to 'or': " ++ m))
                  | PErr e => PErr e
                  | POk lhs rest'' => POk (OrExpr lhs rhs) rest''
                  end
              end
          end
      end
  | _ => PErr Abort
  end.

(** [parse<NotExpr>]. *)
Definition parse_not (toks : list Token) : presult :=
  match toks with
  | TOp NOT :: rest =>
      match rest with
      | [] => PErr (ParserError "Missing operand to 'not'")
      | _ =>
          match dispatch_parsing rest with
          | PErr (ParserError m) =>
              PErr (ParserError ("Error in operand of 'not': " ++ m))
          | PErr e => PErr e
          | POk ast rest' => POk (NotExpr ast) rest'
          end
      end
  | _ => PErr Abort
  end.

End Boolean.

End Model.

(** ** Printing a selection AST *)

Definition newline : string := String (ascii_of_nat 10) EmptyString.

(** [binop_str]; its [default] case is unreachable on the six operators. *)
Definition binop_str (op : BinOp) : string :=
  match op with
  | OpEQ => "==" | OpNEQ => "!=" | OpLT => "<" | OpLE => "<=" | OpGT => ">" | OpGE => ">="
  end.

(** [Expr::print(unsigned delta)] of the name, index, and, or and not
    expressions; [std::string(delta, ' ')] is [spaces delta]. *)
Fixpoint expr_print (delta : nat) (e : Expr) : string :=
  match e with
  | NameExpr name equals => if equals then "name == " ++ name else "name != " ++ name
  | IndexExpr op val => "index " ++ binop_str op ++ " " ++ string_of_N val
  | AndExpr lhs rhs =>
      "and -> " ++ expr_print 7 lhs ++ newline ++ spaces delta ++ "    -> " ++ expr_print 7 rhs
  | OrExpr lhs rhs =>
      "or -> " ++ expr_print 6 lhs ++ newline ++ spaces delta ++ "   -> " ++ expr_print 6 rhs
  | NotExpr ast => "not " ++ expr_print 4 ast
  end.


(** ** The C API error handling (the C API errors header) *)

(** Modelled from the spec (Error.hpp is missing): the error classes of
    chemfiles; [Error] is the parent of all the others, which are unrelated
    to one another. *)
Inductive ErrorClass :=
| EFileError | EFormatError | EMemoryError | ESelectionError | EConfigurationError | EError.

Definition derives_from (c base : ErrorClass) : bool :=
  match base, c with
  | EError, _ => true
  | EFileError, EFileError | EFormatError, EFormatError | EMemoryError, EMemoryError
  | ESelectionError, ESelectionError | EConfigurationError, EConfigurationError => true
  | _, _ => false
  end.

(** An exception escaping the wrapped instructions: a chemfiles error, or
    another [std::exception]. *)
Inductive Exn :=
| ChflExn (c : ErrorClass) (msg : string)
| StdExn (msg : string).

Definition exn_what (e : Exn) : string :=
  match e with ChflExn _ m | StdExn m => m end.

Inductive chfl_status :=
| CHFL_SUCCESS | CHFL_MEMORY_ERROR | CHFL_FILE_ERROR | CHFL_FORMAT_ERROR
| CHFL_SELECTION_ERROR | CHFL_GENERIC_ERROR | CHFL_CXX_ERROR.

(** [CAPI_LAST_ERROR] and the messages sent to [chemfiles::warning]. *)
Record CApi := mkCApi { capi_last_error : string; capi_warnings : list string }.

(** The [CATCH_AND_RETURN] clauses of [CHFL_ERROR_CATCH], in order. *)
Definition catch_clauses : list (ErrorClass * chfl_status) :=
  [(EFileError, CHFL_FILE_ERROR); (EMemoryError, CHFL_MEMORY_ERROR);
   (EFormatError, CHFL_FORMAT_ERROR); (ESelectionError, CHFL_SELECTION_ERROR);
   (EError, CHFL_GENERIC_ERROR)].

(** The first clause whose class the exception derives from. *)
Definition first_clause (e : Exn) : option chfl_status :=
  match e with
  | ChflExn c _ => option_map snd (find (fun cl => derives_from c (fst cl)) catch_clauses)
  | StdExn _ => None
  end.

(** [CHFL_ERROR_CATCH(instructions)]; the instructions run on a state of
    their own and may throw. *)
Definition chfl_error_catch {S} (instructions : S -> option Exn * S) (s : S) (c : CApi)
    : chfl_status * S * CApi :=
  match instructions s with
  | (None, s') => (CHFL_SUCCESS, s', c)
  | (Some e, s') =>
      match first_clause e with
      | Some status =>
          (status, s', mkCApi (exn_what e) (capi_warnings c ++ [exn_what e]))
      | None => (CHFL_CXX_ERROR, s', mkCApi (exn_what e) (capi_warnings c))
      end
  end.

(** [CHFL_ERROR_GOTO(instructions)]; [true] when control goes to the [error]
    label. *)
Definition chfl_error_goto {S} (instructions : S -> option Exn * S) (s : S) (c : CApi)
    : bool * S * CApi :=
  match instructions s with
  | (None, s') => (false, s', c)
  | (Some e, s') =>
      match first_clause e with
      | Some _ => (true, s', mkCApi (exn_what e) (capi_warnings c ++ [exn_what e]))
      | None => (true, s', mkCApi (exn_what e) (capi_warnings c))
      end
  end.

(** [checked_cast]; [size_max] is the [SIZE_MAX] of the platform. *)
Definition checked_cast (size_max value : N) : result N :=
  if (size_max <? value)%N
  then Err (GenericError "Got a value too big to be represented by a size_t on this system")
  else Ok value.

(** ** A concrete environment

    Doubles as exact rationals, decimal parsing and fixed-point formatting,
    [split] dropping empty fields and [trim] of blanks; used to run the code
    on concrete files. *)

Definition is_blank (c : ascii) : bool :=
  (Ascii.eqb c " ") || (Ascii.eqb c (ascii_of_nat 9)).

Fixpoint ltrim (s : string) : string :=
  match s with
  | String c s' => if is_blank c then ltrim s' else s
  | EmptyString => EmptyString
  end.

Definition string_rev (s : string) : string :=
  string_of_list_ascii (rev (list_ascii_of_string s)).

Definition q_trim (s : string) : string := string_rev (ltrim (string_rev (ltrim s))).

Definition digit_val (c : ascii) : option Z :=
  let n := nat_of_ascii c in
  if Nat.leb 48 n && Nat.leb n 57 then Some (Z.of_nat (n - 48)) else None.

(** Leading decimal digits: value, count, rest. *)
Fixpoint take_digits (s : string) (acc : Z) (k : nat) : Z * nat * string :=
  match s with
  | String c s' =>
      match digit_val c with
      | Some d => take_digits s' (10 * acc + d) (S k)
      | None => (acc, k, s)
      end
  | EmptyString => (acc, k, s)
  end.

Definition q_parse_size (s : string) : option N :=
  match take_digits (q_trim s) 0 0 with
  | (v, S _, EmptyString) => Some (Z.to_N v)
  | _ => None
  end.

Definition q_parse_double (s : string) : option Q :=
  let t := q_trim s in
  let '(neg, t1) := match t with
                    | String "-" t' => (true, t')
                    | _ => (false, t)
                    end in
  let '(ip, ni, t2) := take_digits t1 0 0 in
  let '(fp, nf, t3) := match t2 with
                       | String "." t' => take_digits t' 0 0
                       | _ => (0%Z, O, t2)
                       end in
  match t3, Nat.add ni nf with
  | EmptyString, S _ =>
      let v := (Qmake (ip * 10 ^ Z.of_nat nf + fp) (Pos.of_nat (10 ^ nf)))%Q in
      Some (if neg then Qopp v else v)
  | _, _ => None
  end.

Fixpoint zeros (n : nat) : string :=
  match n with O => "" | S n' => String "0" (zeros n') end.

Definition q_fmt_fixed (w p : nat) (x : Q) : string :=
  let m := Qfloor (x * inject_Z (10 ^ Z.of_nat p) + (1 # 2))%Q in
  let ds := string_of_N (Z.to_N (Z.abs m)) in
  let ds := zeros (S p - String.length ds) ++ ds in
  let k := String.length ds - p in
  let body := substring 0 k ds ++ "." ++ substring k p ds in
  pad_left w (if (m <? 0)%Z then "-" ++ body else body).

Fixpoint q_split_aux (s : string) (c : ascii) (cur : string) : list string :=
  match s with
  | EmptyString => if String.eqb cur "" then [] else [string_rev cur]
  | String d s' =>
      if Ascii.eqb d c then
        (if String.eqb cur "" then [] else [string_rev cur]) ++ q_split_aux s' c ""
      else q_split_aux s' c (String d cur)
  end.

Definition q_split (s : string) (c : ascii) : list string := q_split_aux s c "".

#[export] Instance QNum : Num := { dbl := Q }.

#[export] Instance QEnv : Env := {
  d0 := 0%Q;
  d10 := 10%Q;
  dmul := Qmult;
  ddiv := Qdiv;
  dltb x y := negb (Qle_bool y x);
  deqb := Qeq_bool;
  dof_Z := inject_Z;
  dceil q := inject_Z (Qceiling q);
  dto_size q := Z.to_N (Qfloor q);
  fmt_fixed := q_fmt_fixed;
  parse_double := q_parse_double;
  parse_size := q_parse_size;
  split := q_split;
  trim := q_trim;
  ndebug := false
}.

(** Modelled from the spec: [dispatch_parsing] (parser.cpp is missing): the
    boolean operators by their token, the [name] and [index] clauses by the
    identifier that closes them (tokens are in reverse order). *)
Fixpoint dispatch_parsing_model (fuel : nat) (toks : list Token) : presult :=
  match fuel with
  | O => PErr Abort
  | S fuel' =>
      match toks with
      | TOp AND :: _ => parse_and (dispatch_parsing_model fuel') toks
      | TOp OR :: _ => parse_or (dispatch_parsing_model fuel') toks
      | TOp NOT :: _ => parse_not (dispatch_parsing_model fuel') toks
      | _ :: _ :: t2 :: _ =>
          if is_ident "index" t2 then parse_index toks
          else if is_ident "name" t2 then parse_name toks
          else PErr (ParserError "Unknown selection clause")
      | _ => PErr (ParserError "Bad selection")
      end
  end.

(** ** Specifications of the GRO functions

    Predicates stating what a read or a write produced, used by the
    properties below. *)

(** A computation preserves a relation between its initial and final
    states. *)
Definition preserves {S A} (P : S -> S -> Prop) (m : M S A) : Prop :=
  forall s r s', m s = (r, s') -> P s s'.

Definition same_props `{E : Env} (s s' : GSt) : Prop :=
  f_properties (fst s') = f_properties (fst s).

Definition atom_line_ok `{E : Env} (line : string) (p v : Vector3D) : Prop :=
  44 <= String.length line /\
  (exists x y z,
     parse_double (substring 20 8 line) = Some x /\
     parse_double (substring 28 8 line) = Some y /\
     parse_double (substring 36 8 line) = Some z /\
     p = (dmul x d10, dmul y d10, dmul z d10)) /\
  (if Nat.leb 68 (String.length line) then
     exists vx vy vz,
       parse_double (substring 44 8 line) = Some vx /\
       parse_double (substring 52 8 line) = Some vy /\
       parse_double (substring 60 8 line) = Some vz /\
       v = (dmul vx d10, dmul vy d10, dmul vz d10)
   else v = vzero).

Definition atom_of_line `{E : Env} (line : string) : Atom :=
  mkAtom (trim (substring 10 5 line)).

Inductive atoms_ok `{E : Env} : list string -> list Vector3D -> list Vector3D -> Prop :=
| atoms_ok_nil : atoms_ok [] [] []
| atoms_ok_cons l ls p ps v vs :
    atom_line_ok l p v -> atoms_ok ls ps vs -> atoms_ok (l :: ls) (p :: ps) (v :: vs).

Definition box_cell_ok `{E : Env} (vals : list string) (c c' : UnitCell) : Prop :=
  match vals with
  | [s0; s1; s2] =>
      exists a b cc, parse_double s0 = Some a /\ parse_double s1 = Some b /\
        parse_double s2 = Some cc /\
        c' = CellLengths (dmul a d10) (dmul b d10) (dmul cc d10)
  | [s0; s1; s2; s3; s4; s5; s6; s7; s8] =>
      exists v1x v2y v3z v2x v3x v3y,
        parse_double s0 = Some v1x /\ parse_double s1 = Some v2y /\
        parse_double s2 = Some v3z /\ parse_double s5 = Some v2x /\
        parse_double s7 = Some v3x /\ parse_double s8 = Some v3y /\
        c' = CellMatrix ((dmul v1x d10, dmul v2x d10, dmul v3x d10),
                         (d0, dmul v2y d10, dmul v3y d10),
                         (d0, d0, dmul v3z d10))
  | _ => c' = c
  end.

Definition W_ATOMS : string := "Too many atoms for GRO format, removing atomic id".

Definition W_RESIDUES : string := "Too many residues for GRO format, removing residue id".

Definition vel_part `{E : Env} (f : Frame) (i : nat) : string :=
  match f_velocities f with
  | Some vs => fmt_vec 4 (vdiv (nth i vs vzero) d10)
  | None => ""
  end.

Definition atom_line_written `{E : Env} (f : Frame) (i : nat) (line : string)
    (warnings : list string) : Prop :=
  exists resid resname idx,
    line = pad_left 5 resid ++ pad_right 5 resname ++
           pad_left 5 (atom_name (nth i (f_atoms f) (mkAtom ""))) ++
           pad_left 5 idx ++ fmt_vec 3 (vdiv (nth i (f_positions f) vzero) d10) ++
           vel_part f i /\
    (99999 <= N.of_nat i -> idx = "*****" /\ In W_ATOMS warnings)%N /\
    (N.of_nat i < 99999 -> idx = string_of_N (N.of_nat i + 1))%N /\
    (forall r v, residue_for_atom (N.of_nat i) (f_residues f) = Some r ->
       res_id r = Some v ->
       ((99999 < v)%N -> resid = "-1" /\ In W_RESIDUES warnings) /\
       ((v <= 99999)%N -> resid = string_of_N v)).

Definition errors_only {S A} (Pe : Error -> Prop) (m : M S A) : Prop :=
  forall s e s', m s = (Err e, s') -> Pe e.

Definition too_big (e : Error) : Prop :=
  exists context, e = FormatError ("value in " ++ context ++
                                   " is too big for representation in GRO format").

Definition same_lines (t t' : TextFile) : Prop := tf_lines t' = tf_lines t.

(** ** Specifications of the step index, the residues, the written columns,
    the selection parsers and printer, and the C API *)

(** A step starts at line [p] of [L]: a title line, then a count line holding
    some [n], then [(n + 1) mod 2^64] more lines (the atoms and the box). *)
Definition step_at `{E : Env} (L : list string) (p : nat) : Prop :=
  exists title nline n,
    nth_error L p = Some title /\ nth_error L (S p) = Some nline /\
    parse_size nline = Some n /\
    (N.of_nat (S (S p)) + N.modulo (n + 1) (2 ^ 64) <= N.of_nat (length L))%N.

(** The error of [forward] when a step is cut short. *)
Definition E_LINES : Error := FormatError "not enough lines in file for GRO format".

(** The residue id column of an atom line, as [GROFormat::read] parses it. *)
Definition resid_of `{E : Env} (line : string) : N :=
  match parse_size (substring 0 5 line) with Some r => r | None => SIZE_MAX end.

(** The residues built from the lines [ls] of a step: sorted by id, each
    with its own id, holding exactly the atoms whose resid column is that id,
    and named after the first of them. *)
Definition res_map_ok `{E : Env} (ls : list string) (m : list (N * Residue)) : Prop :=
  StronglySorted (fun a b => (fst a < fst b)%N) m /\
  (forall k r, In (k, r) m ->
     res_id r = Some k /\ k <> SIZE_MAX /\
     (forall a, In a (res_atoms r) ->
        exists line, nth_error ls (N.to_nat a) = Some line /\ resid_of line = k) /\
     (exists j line, nth_error ls j = Some line /\ resid_of line = k /\
        res_name r = trim (substring 5 5 line) /\
        forall j' line', j' < j -> nth_error ls j' = Some line' -> resid_of line' <> k)) /\
  (forall i line, nth_error ls i = Some line -> resid_of line <> SIZE_MAX ->
     exists r, In (resid_of line, r) m /\ In (N.of_nat i) (res_atoms r)).

(** A written atom line: the resid, resname and index columns are five
    characters wide, the name column is the name right-aligned on five
    characters and never truncated. *)
Definition atom_line_columns `{E : Env} (f : Frame) (i : nat) (line : string) : Prop :=
  exists c_resid c_resname c_idx,
    String.length c_resid = 5 /\ String.length c_resname = 5 /\ String.length c_idx = 5 /\
    line = c_resid ++ c_resname ++ pad_left 5 (atom_name (nth i (f_atoms f) (mkAtom ""))) ++
           c_idx ++ fmt_vec 3 (vdiv (nth i (f_positions f) vzero) d10) ++ vel_part f i.

(** The number of tokens an expression is written with: three for a
    [name] or [index] clause, one for each [and], [or] and [not]. *)
Fixpoint expr_tokens (e : Expr) : nat :=
  match e with
  | NameExpr _ _ | IndexExpr _ _ => 3
  | AndExpr lhs rhs | OrExpr lhs rhs => 1 + expr_tokens lhs + expr_tokens rhs
  | NotExpr ast => 1 + expr_tokens ast
  end.

(** A parser consumes, on success, exactly the tokens of the expression it
    returns: what is left is a suffix of its input. *)
Definition consumes (p : list Token -> presult) : Prop :=
  forall toks e rest, p toks = POk e rest ->
    exists pre, toks = (pre ++ rest)%list /\ length pre = expr_tokens e.

(** Whether a text holds a line break. *)
Fixpoint has_newline (s : string) : bool :=
  match s with
  | EmptyString => false
  | String c s' => Ascii.eqb c (ascii_of_nat 10) || has_newline s'
  end.

(** The lines of a text: its pieces between line breaks. *)
Fixpoint lines_of (s : string) : list string :=
  match s with
  | EmptyString => [""]
  | String c s' =>
      let r := lines_of s' in
      if Ascii.eqb c (ascii_of_nat 10) then "" :: r
      else match r with
           | x :: r' => String c x :: r'
           | [] => [String c ""]
           end
  end.

(** The number of [and] and [or] nodes. *)
Fixpoint binary_nodes (e : Expr) : nat :=
  match e with
  | NameExpr _ _ | IndexExpr _ _ => 0
  | AndExpr lhs rhs | OrExpr lhs rhs => 1 + binary_nodes lhs + binary_nodes rhs
  | NotExpr ast => binary_nodes ast
  end.

(** No name of the expression holds a line break. *)
Fixpoint names_ok (e : Expr) : Prop :=
  match e with
  | NameExpr name _ => has_newline name = false
  | IndexExpr _ _ => True
  | AndExpr lhs rhs | OrExpr lhs rhs => names_ok lhs /\ names_ok rhs
  | NotExpr ast => names_ok ast
  end.

(** A continuation line: [k] spaces, at most [bound], then an arrow. *)
Definition arrow_line (bound : nat) (l : string) : Prop :=
  exists k tail, l = spaces k ++ "-> " ++ tail /\ k <= bound.

(** The status each error class should be reported with. *)
Definition class_status (c : ErrorClass) : chfl_status :=
  match c with
  | EFileError => CHFL_FILE_ERROR
  | EMemoryError => CHFL_MEMORY_ERROR
  | EFormatError => CHFL_FORMAT_ERROR
  | ESelectionError => CHFL_SELECTION_ERROR
  | EConfigurationError | EError => CHFL_GENERIC_ERROR
  end.

(** ** Concrete inputs *)

(** The tokens of [index == 3 and name == O], in the parser's order. *)
Definition toks_and_demo : list (@Token QNum) :=
  [TOp AND; TOp EQ; TIdent "O"; TIdent "name";
   TOp EQ; TNum (3 # 1)%Q; TIdent "index"].

Definition has_digit (s : string) : bool :=
  existsb (fun c => match digit_val c with Some _ => true | None => false end)
    (list_ascii_of_string s).

(** The tokens of the invalid selection [index == a] (the same stream as for
    [index ==   a]: the offset of [a] is not part of any token). *)
Definition toks_index_bad : list (@Token QNum) :=
  [TOp EQ; TIdent "a"; TIdent "index"].

Definition atom_line_demo : string :=
  "    1SOL     OW    1   0.126   1.624   1.679".

(** Two well-formed steps of one atom each. *)
Definition gro_demo : list string :=
  ["step 0"; "    1"; atom_line_demo; "   1.0   2.0   3.0";
   "step 1"; "    1"; atom_line_demo; "   1.5   2.5   3.5"].

Definition traj_demo : Trajectory :=
  match gro_open gro_demo with
  | Ok g => mkTrajectory g 0
  | Err _ => mkTrajectory (mkGRO (open_text []) []) 0
  end.

(** A frame of one atom without a name, and a step whose atom line is too
    short. *)
Definition frame_one : Frame :=
  mkFrame 0 [(1 # 1, 2 # 1, 3 # 1)%Q] None [mkAtom "OW"] [] [] CellInfinite [].


(** A file whose first step is malformed and whose second step is not. *)
Definition gro_bad_first : list string :=
  ["step 0"; "    1"; "short"; "   1.0   1.0   1.0";
   "step 1"; "    1"; atom_line_demo; "   1.5   2.5   3.5"].

(** One atom in a residue whose id is 100000. *)
Definition frame_res_big : Frame :=
  mkFrame 0 [(0, 0, 0)%Q] None [mkAtom "O"]
    [mkResidue "SOL" (Some 100000%N) [0%N]] [] CellInfinite [].

(** [n] identical water oxygens, without residues or velocities. *)
Definition water_pos : Vector3D := (1 # 1, 2 # 1, 3 # 1)%Q.

Definition frame_water (n : nat) : Frame :=
  mkFrame 0 (repeat water_pos n) None (repeat (mkAtom "OW") n) [] []
    (CellLengths 10%Q 10%Q 10%Q) [].

Definition frame_big : Frame := frame_water 100000.

(** The line [GROFormat::write] outputs for the atom of index 99999 of
    [frame_big]: the loop reaches it with [max_resid = 100000]. *)
Definition line_big : string :=
  match gro_write_atom frame_big 100000 99999 ([], []) with
  | (Ok _, (l :: _, _)) => l
  | _ => ""
  end.

(** A one-atom step holding that line. *)
Definition file_big_step : list string :=
  ["written by chemfiles"; "    1"; line_big; "   1.00000   1.00000   1.00000"].

(** A step of three atoms: two in residue 1, one in residue 2. *)
Definition gro_res_demo : list string :=
  ["two residues"; "    3";
   "    1SOL     OW    1   0.126   1.624   1.679";
   "    1SOL    HW1    2   0.190   1.661   1.747";
   "    2SOL     OW    3   0.226   1.624   1.679";
   "   1.0   2.0   3.0"].

(** * Properties *)

(** ** Selection parser *)

(** C5: [and] and [or] are prefix operators: the token is consumed, the
    right-hand operand is parsed first and the left-hand one second, giving
    the conjunction (disjunction) [lhs, rhs]; a missing operand raises a
    [ParserError] naming the missing side.  For every [dispatch_parsing]. *)
Theorem parse_and_or_prefix `{E : Env} (dispatch : list Token -> presult) :
  parse_and dispatch [TOp AND] =
    PErr (ParserError "Missing right-hand side operand to 'and'") /\
  parse_or dispatch [TOp OR] =
    PErr (ParserError "Missing right-hand side operand to 'or'") /\
  (forall rest rhs, rest <> [] -> dispatch rest = POk rhs [] ->
     parse_and dispatch (TOp AND :: rest) =
       PErr (ParserError "Missing left-hand side operand to 'and'") /\
     parse_or dispatch (TOp OR :: rest) =
       PErr (ParserError "Missing left-hand side operand to 'or'")) /\
  (forall rest rhs rest' lhs rest'',
     rest <> [] -> dispatch rest = POk rhs rest' ->
     rest' <> [] -> dispatch rest' = POk lhs rest'' ->
     parse_and dispatch (TOp AND :: rest) = POk (AndExpr lhs rhs) rest'' /\
     parse_or dispatch (TOp OR :: rest) = POk (OrExpr lhs rhs) rest'').
Proof.
  split; [reflexivity|]. split; [reflexivity|]. split.
  - intros [|t rest] rhs Hne Hd; [congruence|].
    simpl. rewrite Hd. split; reflexivity.
  - intros [|t rest] rhs [|t' rest'] lhs rest'' Hne Hd Hne' Hd';
      try congruence.
    simpl. rewrite Hd. rewrite Hd'. split; reflexivity.
Qed.

Lemma parse_and_or_prefix_witness :
  parse_and (dispatch_parsing_model 5) toks_and_demo =
    POk (AndExpr (IndexExpr OpEQ 3) (NameExpr "O" true)) [].
Proof.
  destruct (parse_and_or_prefix (dispatch_parsing_model 5))
    as [_ [_ [_ H]]].
  apply (H (tl toks_and_demo) (NameExpr "O" true) (skipn 4 toks_and_demo)
           (IndexExpr OpEQ 3) []);
    [discriminate | vm_compute; reflexivity | discriminate | vm_compute; reflexivity].
Defined.

(** C4 (counterexample): the syntax error raised for [index == a] is a
    [ParserError] holding only the fixed message "Index selection should
    contain an integer", which contains no number: no byte offset is
    carried. *)
Lemma parse_index_error_has_no_offset :
  parse_index (E := QEnv) toks_index_bad =
    PErr (ParserError "Index selection should contain an integer") /\
  has_digit "Index selection should contain an integer" = false.
Proof. split; vm_compute; reflexivity. Qed.

(** C4 (amended): a [ParserError] raised by the index, [and] and [or]
    parsers carries a message only: the fixed index message, a "Missing
    ... operand" message naming the side, or the operand's own message
    prefixed by the side it comes from; no offset is recorded. *)
Theorem parser_errors_are_messages `{E : Env}
    (dispatch : list Token -> presult) (toks : list Token) (m : string) :
  (parse_index toks = PErr (ParserError m) ->
     m = "Index selection should contain an integer") /\
  (parse_and dispatch toks = PErr (ParserError m) ->
     m = "Missing right-hand side operand to 'and'" \/
     m = "Missing left-hand side operand to 'and'" \/
     exists rest m', dispatch rest = PErr (ParserError m') /\
       (m = "Error in right-hand side operand to 'and': " ++ m' \/
        m = "Error in left-hand side operand to 'and': " ++ m')) /\
  (parse_or dispatch toks = PErr (ParserError m) ->
     m = "Missing right-hand side operand to 'or'" \/
     m = "Missing left-hand side operand to 'or'" \/
     exists rest m', dispatch rest = PErr (ParserError m') /\
       (m = "Error in right-hand side operand to 'or': " ++ m' \/
        m = "Error in left-hand side operand to 'or': " ++ m')).
Proof.
  split; [|split].
  - unfold parse_index.
    destruct toks as [|t0 [|t1 [|t2 rest]]]; try discriminate.
    destruct (negb (is_ident "index" t2 && is_binary_op t0)); [discriminate|].
    destruct t1; try (intro Hm; injection Hm as <-; reflexivity).
    destruct (negb (deqb (dceil x) x)); intro Hm; try discriminate; injection Hm as <-; reflexivity.
  - unfold parse_and.
    destruct toks as [|[ty| |] rest]; try discriminate.
    destruct ty; try discriminate.
    destruct rest as [|t rest]; [intro Hm; injection Hm as <-; left; reflexivity|].
    destruct (dispatch (t :: rest)) as [rhs [|t' rest']|[m0|]] eqn:Hd.
    + intro Hm; injection Hm as <-; right; left; reflexivity.
    + destruct (dispatch (t' :: rest')) as [lhs rest''|[m1|]] eqn:Hd';
        intro Hm; try discriminate; injection Hm as <-.
      right; right. exists (t' :: rest'), m1. split; [exact Hd'|right; reflexivity].
    + intro Hm; try discriminate; injection Hm as <-.
      right; right. exists (t :: rest), m0. split; [exact Hd|left; reflexivity].
    + discriminate.
  - unfold parse_or.
    destruct toks as [|[ty| |] rest]; try discriminate.
    destruct ty; try discriminate.
    destruct rest as [|t rest]; [intro Hm; injection Hm as <-; left; reflexivity|].
    destruct (dispatch (t :: rest)) as [rhs [|t' rest']|[m0|]] eqn:Hd.
    + intro Hm; injection Hm as <-; right; left; reflexivity.
    + destruct (dispatch (t' :: rest')) as [lhs rest''|[m1|]] eqn:Hd';
        intro Hm; try discriminate; injection Hm as <-.
      right; right. exists (t' :: rest'), m1. split; [exact Hd'|right; reflexivity].
    + intro Hm; try discriminate; injection Hm as <-.
      right; right. exists (t :: rest), m0. split; [exact Hd|left; reflexivity].
    + discriminate.
Qed.

(** ** Trajectory::read_step *)

(** C8 (spec-modelled [Trajectory::read_step]): for [i < nsteps()] a
    successful [read_step(i)] is the GRO [read] at the [i]-th recorded step
    position and leaves the step index at [i + 1]; for [i >= nsteps()] it
    fails with an error and changes nothing. *)
Theorem traj_read_step_index `{E : Env} (t : Trajectory) (i : nat) :
  (i < traj_nsteps t ->
     forall fr t', traj_read_step i t = (Ok fr, t') ->
       traj_step_index t' = S i /\
       exists p f, nth_error (steps_positions (traj_format t)) i = Some p /\
         gro_read (empty_frame, seekg p (gro_file (traj_format t))) =
           (Ok tt, (f, gro_file (traj_format t'))) /\
         steps_positions (traj_format t') = steps_positions (traj_format t) /\
         fr = frame_set_step (N.of_nat i) f) /\
  (traj_nsteps t <= i -> exists e, traj_read_step i t = (Err e, t)).
Proof.
  unfold traj_read_step, traj_nsteps, gro_nsteps. split.
  - intros Hlt fr t' Hr.
    destruct (Nat.leb (length (steps_positions (traj_format t))) i) eqn:Hle.
    { apply Nat.leb_le in Hle. lia. }
    unfold gro_read_step in Hr.
    destruct (nth_error (steps_positions (traj_format t)) i) as [p|] eqn:Hn.
    2:{ apply nth_error_None in Hn. lia. }
    destruct (gro_read (empty_frame, seekg p (gro_file (traj_format t))))
      as [[[]|e] [f tf]] eqn:Hg; inversion Hr; subst; clear Hr.
    split; [reflexivity|]. exists p, f. simpl. auto.
  - intros Hle. exists (FileError "can not read file at this step: out of range").
    apply Nat.leb_le in Hle. rewrite Hle. reflexivity.
Qed.

Lemma traj_read_step_index_witness :
  traj_step_index (snd (traj_read_step 1 traj_demo)) = 2.
Proof.
  pose proof (proj1 (traj_read_step_index traj_demo 1)) as H.
  destruct (traj_read_step 1 traj_demo) as [[fr|e] t'] eqn:Hr.
  - exact (proj1 (H ltac:(vm_compute; lia) fr t' eq_refl)).
  - vm_compute in Hr. discriminate.
Defined.

(** ** GROFormat::read and GROFormat::write *)

Section Preserve.

Context {S : Type} (P : S -> S -> Prop).

Hypothesis P_refl : forall s, P s s.

Hypothesis P_trans : forall s1 s2 s3, P s1 s2 -> P s2 s3 -> P s1 s3.

Lemma preserves_ret {A} (a : A) : preserves P (ret a).
Proof. intros s r s' H. injection H as _ <-. apply P_refl. Qed.

Lemma preserves_throw {A} e : preserves P (throw (A := A) e).
Proof. intros s r s' H. injection H as _ <-. apply P_refl. Qed.

Lemma preserves_get : preserves P get.
Proof. intros s r s' H. injection H as _ <-. apply P_refl. Qed.

Lemma preserves_modify g : (forall s, P s (g s)) -> preserves P (modify g).
Proof. intros Hg s r s' Hm. injection Hm as _ <-. apply Hg. Qed.

Lemma preserves_bind {A B} (m : M S A) (k : A -> M S B) :
  preserves P m -> (forall a, preserves P (k a)) -> preserves P (bind m k).
Proof.
  intros Hm Hk s r s'' H. unfold bind in H.
  destruct (m s) as [[a|e] s'] eqn:Hs.
  - eapply P_trans; [eapply Hm; exact Hs | eapply Hk; exact H].
  - injection H as _ <-. eapply Hm; exact Hs.
Qed.

Lemma preserves_catch {A} (m : M S A) h :
  preserves P m -> (forall e, preserves P (h e)) -> preserves P (catch m h).
Proof.
  intros Hm Hh s r s'' H. unfold catch in H.
  destruct (m s) as [[a|e] s'] eqn:Hs.
  - injection H as _ <-. eapply Hm; exact Hs.
  - eapply P_trans; [eapply Hm; exact Hs | eapply Hh; exact H].
Qed.

Lemma preserves_catch_file {A} (m : M S A) h :
  preserves P m -> (forall e, preserves P (h e)) -> preserves P (catch_file m h).
Proof.
  intros Hm Hh s r s'' H. unfold catch_file in H.
  destruct (m s) as [[a|[]] s'] eqn:Hs;
    try (injection H as _ <-; eapply Hm; exact Hs).
  eapply P_trans; [eapply Hm; exact Hs | eapply Hh; exact H].
Qed.

Lemma preserves_mfold {A B} (f : A -> B -> M S A) :
  (forall a b, preserves P (f a b)) -> forall l a, preserves P (mfold f a l).
Proof.
  intros Hf l. induction l as [|b l IH]; intros a; simpl.
  - apply preserves_ret.
  - apply preserves_bind; auto.
Qed.

End Preserve.

Lemma parse_double_m_pres {S} (P : S -> S -> Prop) `{E : Env} s :
  (forall x, P x x) -> preserves P (parse_double_m s).
Proof.
  intros Hr. unfold parse_double_m. destruct (parse_double s).
  - apply preserves_ret; auto. - apply preserves_throw; auto.
Qed.

Lemma parse_size_m_pres {S} (P : S -> S -> Prop) `{E : Env} s :
  (forall x, P x x) -> preserves P (parse_size_m s).
Proof.
  intros Hr. unfold parse_size_m. destruct (parse_size s).
  - apply preserves_ret; auto. - apply preserves_throw; auto.
Qed.

Lemma same_props_refl `{E : Env} s : same_props s s.
Proof. reflexivity. Qed.

Lemma same_props_trans `{E : Env} s1 s2 s3 :
  same_props s1 s2 -> same_props s2 s3 -> same_props s1 s3.
Proof. unfold same_props. congruence. Qed.

Lemma modify_frame_props `{E : Env} g :
  (forall f, f_properties (g f) = f_properties f) ->
  preserves same_props (modify_frame g).
Proof. intros Hg s r s' Hm. injection Hm as _ <-. apply Hg. Qed.

Lemma on_file_props `{E : Env} {A} (m : M TextFile A) :
  preserves same_props (on_file m).
Proof.
  intros s r s' Hm. unfold on_file in Hm. destruct (m (snd s)).
  injection Hm as _ <-. reflexivity.
Qed.

Lemma get_frame_props `{E : Env} : preserves same_props get_frame.
Proof. intros s r s' Hm. injection Hm as _ <-. reflexivity. Qed.

Create HintDb gro_pres.

#[local] Hint Resolve same_props_refl same_props_trans : gro_pres.

Ltac pres_side := intros; eauto with gro_pres.

Ltac pres_step :=
  match goal with
  | |- preserves _ (bind _ _) =>
      apply preserves_bind; [solve [pres_side] | | intro]
  | |- preserves _ (catch _ _) =>
      apply preserves_catch; [solve [pres_side] | | intro]
  | |- preserves _ (catch_file _ _) =>
      apply preserves_catch_file; [solve [pres_side] | | intro]
  | |- preserves _ (ret _) => apply preserves_ret; solve [pres_side]
  | |- preserves _ (throw _) => apply preserves_throw; solve [pres_side]
  | |- preserves _ get => apply preserves_get; solve [pres_side]
  | |- preserves _ (parse_double_m _) => apply parse_double_m_pres; solve [pres_side]
  | |- preserves _ (parse_size_m _) => apply parse_size_m_pres; solve [pres_side]
  | |- preserves same_props get_frame => apply get_frame_props
  | |- preserves same_props (on_file _) => apply on_file_props
  | |- preserves same_props (modify_frame _) =>
      apply modify_frame_props; intros [] ; reflexivity
  | |- preserves _ (if ?b then _ else _) => destruct b
  | |- preserves _ (match ?x with _ => _ end) => destruct x
  end.

Lemma gro_read_atom_props `{E : Env} res line :
  preserves same_props (gro_read_atom res line).
Proof. unfold gro_read_atom. repeat pres_step. Qed.

Lemma gro_read_box_props `{E : Env} vals :
  preserves same_props (gro_read_box vals).
Proof. unfold gro_read_box, gro_assert_zero. repeat pres_step. Qed.

Lemma gro_read_atom_ok `{E : Env} res line f tf res' f' tf' :
  gro_read_atom res line (f, tf) = (Ok res', (f', tf')) ->
  tf' = tf /\
  exists p v, atom_line_ok line p v /\
    f' = frame_add_atom (atom_of_line line) p v f.
Proof.
  intros Hr.
  unfold gro_read_atom, bind, ret, throw, parse_double_m, modify_frame, modify,
    get_frame in Hr.
  destruct (Nat.ltb (String.length line) 44) eqn:Hl; [discriminate Hr|].
  apply Nat.ltb_ge in Hl.
  repeat (cbv beta iota zeta in Hr;
    match type of Hr with
    | context [parse_double ?s] =>
        let Hp := fresh "Hp" in
        destruct (parse_double s) eqn:Hp; [|discriminate Hr]
    end).
  destruct (Nat.leb 68 (String.length line)) eqn:Hv;
  repeat (cbv beta iota zeta in Hr;
    match type of Hr with
    | context [parse_double ?s] =>
        let Hp := fresh "Hp" in
        destruct (parse_double s) eqn:Hp; [|discriminate Hr]
    end);
  (destruct (_ =? SIZE_MAX)%N; injection Hr as _ <- <-);
  (split; [reflexivity|]); do 2 eexists; (split; [|reflexivity]);
  unfold atom_line_ok; rewrite Hv;
  (split; [exact Hl|]);
  (split; [do 3 eexists; repeat split; eassumption|]);
  try reflexivity; do 3 eexists; repeat split; eassumption.
Qed.

Lemma mfold_atoms_ok `{E : Env} lines : forall res f tf res' f' tf',
  mfold gro_read_atom res lines (f, tf) = (Ok res', (f', tf')) ->
  tf' = tf /\
  exists ps vs, atoms_ok lines ps vs /\
    f_positions f' = (f_positions f ++ ps)%list /\
    f_velocities f' = option_map (fun l => l ++ vs)%list (f_velocities f) /\
    f_atoms f' = (f_atoms f ++ map atom_of_line lines)%list /\
    f_properties f' = f_properties f /\
    f_cell f' = f_cell f.
Proof.
  induction lines as [|line lines IH]; intros res f tf res' f' tf' Hr; simpl in Hr.
  - injection Hr as _ <- <-. split; [reflexivity|].
    exists [], []. rewrite !app_nil_r.
    split; [constructor|]. destruct (f_velocities f); simpl; rewrite ?app_nil_r; auto.
  - unfold bind at 1 in Hr.
    destruct (gro_read_atom res line (f, tf)) as [[a|e] [f1 tf1]] eqn:Ha;
      [|discriminate Hr].
    apply gro_read_atom_ok in Ha as [-> (p & v & Hok & ->)].
    apply IH in Hr as [-> (ps & vs & Hoks & Hp & Hv & Hat & Hpr & Hc)].
    split; [reflexivity|]. exists (p :: ps), (v :: vs).
    split; [constructor; assumption|]. simpl in *.
    rewrite Hp, Hv, Hat, Hpr, Hc, <- !app_assoc.
    destruct (f_velocities f); simpl; rewrite <- ?app_assoc; auto.
Qed.

Lemma bind_cases {S A B} (m : M S A) (k : A -> M S B) s r s'' :
  bind m k s = (r, s'') ->
  (exists a s', m s = (Ok a, s') /\ k a s' = (r, s'')) \/
  (exists e, m s = (Err e, s'') /\ r = Err e).
Proof.
  unfold bind. destruct (m s) as [[a|e] s']; intros Hm; eauto.
  injection Hm as <- <-. eauto.
Qed.

Lemma catch_cases {S A} (m : M S A) h s r s'' :
  catch m h s = (r, s'') ->
  (m s = (r, s'') /\ exists a, r = Ok a) \/
  (exists e s', m s = (Err e, s') /\ h e s' = (r, s'')).
Proof.
  unfold catch. destruct (m s) as [[a|e] s']; intros Hm.
  - left. injection Hm as <- <-. eauto.
  - right. eauto.
Qed.

Ltac ok_step H :=
  let a := fresh "a" in let s := fresh "s" in let Hm := fresh "Hm" in
  let e := fresh "e" in let He := fresh "He" in
  apply bind_cases in H as [(a & s & Hm & H) | (e & Hm & He)]; [|discriminate He].

Lemma gro_assert_zero_ok `{E : Env} v s r s' :
  gro_assert_zero v s = (r, s') -> s' = s.
Proof.
  unfold gro_assert_zero, bind, parse_double_m, ret, throw.
  destruct ndebug; [congruence|].
  destruct (parse_double v); [|congruence].
  destruct (deqb _ _); congruence.
Qed.

Lemma parse_double_m_ok `{E : Env} {S} v (s : S) a s' :
  parse_double_m v s = (Ok a, s') -> parse_double v = Some a /\ s' = s.
Proof.
  unfold parse_double_m, ret, throw. destruct (parse_double v); intros Hm;
    [injection Hm as <- <-; auto | discriminate Hm].
Qed.

Lemma parse_size_m_ok `{E : Env} {S} v (s : S) a s' :
  parse_size_m v s = (Ok a, s') -> parse_size v = Some a /\ s' = s.
Proof.
  unfold parse_size_m, ret, throw. destruct (parse_size v); intros Hm;
    [injection Hm as <- <-; auto | discriminate Hm].
Qed.

Lemma modify_frame_ok `{E : Env} g s a s' :
  modify_frame g s = (Ok a, s') -> s' = (g (fst s), snd s).
Proof. unfold modify_frame, modify. intros Hm. injection Hm as _ <-. reflexivity. Qed.

Ltac prim Hm :=
  match type of Hm with
  | parse_double_m _ _ = _ =>
      let Hp := fresh "Hp" in apply parse_double_m_ok in Hm as [Hp ->]
  | parse_size_m _ _ = _ =>
      let Hp := fresh "Hp" in apply parse_size_m_ok in Hm as [Hp ->]
  | gro_assert_zero _ _ = _ => apply gro_assert_zero_ok in Hm; subst
  | modify_frame _ _ = _ => apply modify_frame_ok in Hm; subst
  end.

Lemma gro_read_box_ok `{E : Env} vals f tf f' tf' :
  gro_read_box vals (f, tf) = (Ok tt, (f', tf')) ->
  tf' = tf /\ box_cell_ok vals (f_cell f) (f_cell f') /\
  f' = frame_set_cell (f_cell f') f.
Proof.
  intros Hb. unfold gro_read_box in Hb.
  destruct vals as [|s0 [|s1 [|s2 [|s3 [|s4 [|s5 [|s6 [|s7 [|s8 [|s9 vals]]]]]]]]]];
  try (injection Hb as <- <-; split; [reflexivity|]; split; [reflexivity|];
       destruct f; reflexivity);
  repeat (ok_step Hb; prim Hm);
  apply modify_frame_ok in Hb; simpl in Hb; injection Hb as -> ->; simpl; (split; [reflexivity|]);
  (split; [|reflexivity]); repeat eexists; eassumption.
Qed.

Lemma on_file_readline_ok `{E : Env} f tf l s' :
  on_file readline (f, tf) = (Ok l, s') ->
  nth_error (tf_lines tf) (tf_pos tf) = Some l /\
  s' = (f, mkTextFile (tf_lines tf) (S (tf_pos tf)) false).
Proof.
  unfold on_file, readline; simpl.
  destruct (nth_error (tf_lines tf) (tf_pos tf)); intros Hm;
    [injection Hm as <- <-; auto | discriminate Hm].
Qed.

Lemma on_file_readlines_ok `{E : Env} f tf n ls s' :
  on_file (readlines n) (f, tf) = (Ok ls, s') ->
  (N.of_nat (tf_pos tf) + n <= N.of_nat (length (tf_lines tf)))%N /\
  ls = firstn (N.to_nat n) (skipn (tf_pos tf) (tf_lines tf)) /\
  s' = (f, mkTextFile (tf_lines tf) (tf_pos tf + N.to_nat n) false).
Proof.
  unfold on_file, readlines; simpl.
  destruct (N.of_nat (tf_pos tf) + n <=? N.of_nat (length (tf_lines tf)))%N eqn:Hle;
    intros Hm; [|discriminate Hm].
  injection Hm as <- <-. apply N.leb_le in Hle. auto.
Qed.

Lemma fold_add_residue_fields `{E : Env} (rs : list (N * Residue)) : forall f,
  let f' := fold_left (fun f r => frame_add_residue (snd r) f) rs f in
  f_positions f' = f_positions f /\ f_velocities f' = f_velocities f /\
  f_atoms f' = f_atoms f /\ f_properties f' = f_properties f /\
  f_cell f' = f_cell f.
Proof.
  induction rs as [|r rs IH]; intros f; simpl; [auto|].
  destruct (IH (frame_add_residue (snd r) f)) as (-> & -> & -> & -> & ->).
  simpl. auto.
Qed.

Ltac prim2 Hm :=
  match type of Hm with
  | on_file readline _ = _ =>
      let Hl := fresh "Hl" in apply on_file_readline_ok in Hm as [Hl ->]
  | on_file (readlines _) _ = _ =>
      let Hl := fresh "Hl" in let Hls := fresh "Hls" in
      apply on_file_readlines_ok in Hm as (Hl & Hls & ->)
  | mfold gro_read_atom _ _ _ = (_, ?st) =>
      let ps := fresh "ps" in let vs := fresh "vs" in let Hok := fresh "Hok" in
      let Hps := fresh "Hps" in let Hvs := fresh "Hvs" in let Hat := fresh "Hat" in
      let Hpr := fresh "Hpr" in let Hc := fresh "Hc" in
      destruct st as [? ?];
      apply mfold_atoms_ok in Hm as [-> (ps & vs & Hok & Hps & Hvs & Hat & Hpr & Hc)]
  | gro_read_box _ _ = (Ok ?u, ?st) =>
      let Hc := fresh "Hcell" in
      destruct st as [? ?]; destruct u;
      let Hfb := fresh "Hfb" in
      apply gro_read_box_ok in Hm as (-> & Hc & Hfb)
  | _ => prim Hm
  end.

Lemma gro_reset_fields `{E : Env} f :
  let g := frame_resize 0 (frame_add_velocities f) in
  f_positions g = [] /\ f_velocities g = Some [] /\ f_atoms g = [] /\
  f_properties g = f_properties f /\ f_cell g = f_cell f.
Proof.
  destruct f as [st ps [vs|] ats rs bs c props]; unfold frame_add_velocities;
    simpl; repeat split.
Qed.

Ltac run H :=
  let a := fresh "a" in let s := fresh "s" in let Hm := fresh "Hm" in
  let e := fresh "e" in let He := fresh "He" in
  apply bind_cases in H as [(a & s & Hm & H) | (e & Hm & He)];
  [prim2 Hm; cbn [fst snd tf_lines tf_pos tf_eof] in * | discriminate He].

Lemma gro_read_ok `{E : Env} f tf f' tf' :
  gro_read (f, tf) = (Ok tt, (f', tf')) ->
  exists title nline natoms box ps vs,
    let lines := firstn (N.to_nat natoms) (skipn (S (S (tf_pos tf))) (tf_lines tf)) in
    nth_error (tf_lines tf) (tf_pos tf) = Some title /\
    nth_error (tf_lines tf) (S (tf_pos tf)) = Some nline /\
    parse_size nline = Some natoms /\
    (N.of_nat (S (S (tf_pos tf))) + natoms <= N.of_nat (length (tf_lines tf)))%N /\
    nth_error (tf_lines tf) (S (S (tf_pos tf)) + N.to_nat natoms) = Some box /\
    atoms_ok lines ps vs /\
    f_positions f' = ps /\ f_velocities f' = Some vs /\
    f_atoms f' = map atom_of_line lines /\
    f_properties f' = f_properties (frame_set "name" (PString title) f) /\
    box_cell_ok (split box " "%char) (f_cell f) (f_cell f') /\
    tf' = mkTextFile (tf_lines tf) (S (S (S (tf_pos tf + N.to_nat natoms)))) false.
Proof.
  intros Hr. unfold gro_read in Hr.
  ok_step Hr.
  apply catch_cases in Hm as [(Hm & _) | (e & s' & _ & Hh)];
    [|unfold throw in Hh; discriminate Hh].
  do 3 run Hm. apply parse_size_m_ok in Hm as [Hp ->].
  do 6 run Hr.
  apply modify_frame_ok in Hr. cbn [fst snd] in Hr. injection Hr as Hf' ->.
  destruct (fold_add_residue_fields a6 f1) as (Hp1 & Hv1 & Ha1 & Hpr1 & Hc1).
  rewrite <- Hf' in Hp1, Hv1, Ha1, Hpr1, Hc1.
  rewrite Hfb in Hp1, Hv1, Ha1, Hpr1. cbn [frame_set_cell f_positions f_velocities
    f_atoms f_properties] in Hp1, Hv1, Ha1, Hpr1.
  destruct (gro_reset_fields (frame_set "name" (PString a0) f))
    as (R1 & R2 & R3 & R4 & R5).
  rewrite R1 in Hps. rewrite R2 in Hvs. rewrite R3 in Hat. rewrite R4 in Hpr.
  rewrite R5 in Hc. cbn [f_cell frame_set] in Hc.
  rewrite Hps in Hp1. rewrite Hvs in Hv1. rewrite Hat in Ha1. rewrite Hpr in Hpr1.
  rewrite Hc in Hcell. subst a5.
  exists a0, a2, a, a7, ps, vs. cbn zeta.
  rewrite Hc1, Hp1, Hv1, Ha1, Hpr1. cbn [app option_map].
  repeat split; auto.
Qed.

Lemma on_file_readline_some `{E : Env} f tf l r s' :
  nth_error (tf_lines tf) (tf_pos tf) = Some l ->
  on_file readline (f, tf) = (r, s') ->
  r = Ok l /\ s' = (f, mkTextFile (tf_lines tf) (S (tf_pos tf)) false).
Proof.
  intros Hl. unfold on_file, readline; simpl. rewrite Hl.
  intros Hm. injection Hm as <- <-. auto.
Qed.

Lemma on_file_readline_none `{E : Env} f tf r s' :
  nth_error (tf_lines tf) (tf_pos tf) = None ->
  on_file readline (f, tf) = (r, s') ->
  (exists e, r = Err e) /\ fst s' = f.
Proof.
  intros Hl. unfold on_file, readline; simpl. rewrite Hl.
  intros Hm. injection Hm as <- <-. eauto.
Qed.

Ltac pres_all :=
  repeat (pres_step ||
    match goal with
    | |- preserves same_props (mfold gro_read_atom _ _) =>
        apply preserves_mfold;
          [solve [pres_side] | solve [pres_side] | intros; apply gro_read_atom_props]
    | |- preserves same_props (modify_frame _) =>
        apply modify_frame_props; intros f0;
        first [ destruct f0 as [? ? [?|] ? ? ? ? ?]; reflexivity
              | exact (proj1 (proj2 (proj2 (proj2 (fold_add_residue_fields _ f0))))) ]
    | |- preserves same_props (gro_read_box _) => apply gro_read_box_props
    end).

Lemma gro_read_name `{E : Env} f tf r f' tf' title :
  gro_read (f, tf) = (r, (f', tf')) ->
  nth_error (tf_lines tf) (tf_pos tf) = Some title ->
  f_properties f' = f_properties (frame_set "name" (PString title) f).
Proof.
  intros Hr Ht. unfold gro_read in Hr.
  assert (Hhead : forall r1 s1,
    catch (title <- on_file readline ;;
           modify_frame (frame_set "name" (PString title)) ;;;
           l <- on_file readline ;; parse_size_m l)
      (fun e => throw (FormatError ("can not read next step as GRO: " ++ what e)))
      (f, tf) = (r1, s1) ->
    f_properties (fst s1) = f_properties (frame_set "name" (PString title) f)).
  { intros r1 s1 Hc.
    assert (Hb : exists r2, (title <- on_file readline ;;
           modify_frame (frame_set "name" (PString title)) ;;;
           l <- on_file readline ;; parse_size_m l) (f, tf) = (r2, s1)).
    { apply catch_cases in Hc as [(Hc & _) | (e & s' & Hc & Hh)]; eauto.
      unfold throw in Hh. injection Hh as _ <-. eauto. }
    destruct Hb as [r2 Hb].
    apply bind_cases in Hb as [(t & s2 & Hm & Hb) | (e & Hm & _)];
      apply (on_file_readline_some _ _ _ _ _ Ht) in Hm as [Hm ->]; [|discriminate Hm].
    injection Hm as <-.
    apply bind_cases in Hb as [(u & s3 & Hm & Hb) | (e & Hm & _)];
      [|discriminate Hm].
    apply modify_frame_ok in Hm. subst s3.
    assert (Hp : preserves same_props
      (l <- on_file readline ;; parse_size_m (S := GSt) l)) by pres_all.
    apply Hp in Hb. exact Hb. }
  apply bind_cases in Hr as [(n & s1 & Hc & Hk) | (e & Hc & _)].
  - apply Hhead in Hc. rewrite <- Hc.
    match type of Hk with ?m _ = _ =>
      assert (HK : preserves same_props m) by pres_all end.
    apply HK in Hk. exact Hk.
  - apply Hhead in Hc. exact Hc.
Qed.

Lemma gro_read_no_title `{E : Env} f tf r f' tf' :
  gro_read (f, tf) = (r, (f', tf')) ->
  nth_error (tf_lines tf) (tf_pos tf) = None ->
  (exists e, r = Err e) /\ f' = f.
Proof.
  intros Hr Ht. unfold gro_read in Hr.
  apply bind_cases in Hr as [(n & s1 & Hc & Hk) | (e & Hc & ->)].
  - exfalso.
    apply catch_cases in Hc as [(Hc & _) | (e & s' & Hc & Hh)];
      [|unfold throw in Hh; discriminate Hh].
    apply bind_cases in Hc as [(t & s2 & Hm & _) | (e & Hm & He)];
      [|discriminate He].
    apply (on_file_readline_none _ _ _ _ Ht) in Hm as [[e He] _]. discriminate He.
  - split; [eauto|].
    apply catch_cases in Hc as [(_ & a & Ha) | (e0 & s' & Hc & Hh)];
      [discriminate Ha|].
    unfold throw in Hh. injection Hh as _ ->.
    apply bind_cases in Hc as [(t & s2 & Hm & _) | (e1 & Hm & _)];
      apply (on_file_readline_none _ _ _ _ Ht) in Hm as [[e2 He] Hs];
      [discriminate He | exact Hs].
Qed.

Lemma atoms_ok_nth `{E : Env} ls ps vs :
  atoms_ok ls ps vs ->
  length ps = length ls /\ length vs = length ls /\
  forall i l, nth_error ls i = Some l ->
    exists p v, nth_error ps i = Some p /\ nth_error vs i = Some v /\
      atom_line_ok l p v.
Proof.
  induction 1 as [|l ls p ps v vs Hl Hok (IH1 & IH2 & IH)]; simpl.
  - repeat split; auto. intros [|i] l' Hn; discriminate Hn.
  - repeat split; auto. intros [|i] l' Hn; simpl in *.
    + injection Hn as <-. eauto.
    + eauto.
Qed.

Lemma frame_get_props `{E : Env} name f f' :
  f_properties f' = f_properties f -> frame_get name f' = frame_get name f.
Proof. unfold frame_get. intros ->. reflexivity. Qed.

Lemma frame_get_set `{E : Env} name v f :
  frame_get name (frame_set name v f) = Some v.
Proof. unfold frame_get, frame_set. simpl. rewrite String.eqb_refl. reflexivity. Qed.

(** What a failed read leaves of the frame's atoms. *)
Definition same_atoms `{E : Env} (s s' : GSt) : Prop :=
  f_atoms (fst s') = f_atoms (fst s).

Lemma same_atoms_refl `{E : Env} s : same_atoms s s.
Proof. reflexivity. Qed.

Lemma same_atoms_trans `{E : Env} s1 s2 s3 :
  same_atoms s1 s2 -> same_atoms s2 s3 -> same_atoms s1 s3.
Proof. unfold same_atoms. congruence. Qed.

#[local] Hint Resolve same_atoms_refl same_atoms_trans : gro_pres.









(** C10: after every successful [GROFormat::read] the frame has velocity
    data, one velocity per atom (as many as the atom count of the step), and
    every atom line shorter than 68 characters, which has no velocity columns,
    gives a zero velocity. *)
Theorem gro_read_has_velocities `{E : Env} f tf f' tf' :
  gro_read (f, tf) = (Ok tt, (f', tf')) ->
  exists natoms vs,
    let lines := firstn (N.to_nat natoms) (skipn (S (S (tf_pos tf))) (tf_lines tf)) in
    option_map parse_size (nth_error (tf_lines tf) (S (tf_pos tf))) = Some (Some natoms) /\
    f_velocities f' = Some vs /\
    length vs = frame_size f' /\ length vs = N.to_nat natoms /\
    forall i line, nth_error lines i = Some line -> String.length line < 68 ->
      nth_error vs i = Some vzero.
Proof.
  intros Hr. apply gro_read_ok in Hr
    as (title & nline & natoms & box & ps & vs & _ & Hn & Hp & Hle & _ & Hok & Hps & Hvs & _).
  exists natoms, vs. cbn zeta. rewrite Hn. simpl. rewrite Hp.
  apply atoms_ok_nth in Hok as (Hlp & Hlv & Hnth).
  split; [reflexivity|]. split; [exact Hvs|].
  unfold frame_size. rewrite Hps.
  split; [congruence|]. split.
  - rewrite Hlv. rewrite length_firstn, length_skipn. lia.
  - intros i line Hl Hlen. apply Hnth in Hl as (p & v & _ & Hv & _ & _ & Hv0).
    apply Nat.leb_gt in Hlen. rewrite Hlen in Hv0. subst v. exact Hv.
Qed.

(** C6: after a successful read, a box line of three fields sets the cell to
    the orthorhombic cell of 10 times these lengths, and a box line of nine
    fields [v1x v2y v3z _ _ v2x _ v3x v3y] sets it to the triclinic cell of
    the upper-triangular matrix of these values scaled by 10 (any other number
    of fields leaves the cell as it was). *)
Theorem gro_read_cell `{E : Env} f tf f' tf' :
  gro_read (f, tf) = (Ok tt, (f', tf')) ->
  exists natoms box,
    option_map parse_size (nth_error (tf_lines tf) (S (tf_pos tf))) = Some (Some natoms) /\
    nth_error (tf_lines tf) (S (S (tf_pos tf)) + N.to_nat natoms) = Some box /\
    (forall s0 s1 s2, split box " "%char = [s0; s1; s2] ->
       exists a b c, parse_double s0 = Some a /\ parse_double s1 = Some b /\
         parse_double s2 = Some c /\
         f_cell f' = CellLengths (dmul a d10) (dmul b d10) (dmul c d10)) /\
    (forall s0 s1 s2 s3 s4 s5 s6 s7 s8,
       split box " "%char = [s0; s1; s2; s3; s4; s5; s6; s7; s8] ->
       exists v1x v2y v3z v2x v3x v3y,
         parse_double s0 = Some v1x /\ parse_double s1 = Some v2y /\
         parse_double s2 = Some v3z /\ parse_double s5 = Some v2x /\
         parse_double s7 = Some v3x /\ parse_double s8 = Some v3y /\
         f_cell f' = CellMatrix ((dmul v1x d10, dmul v2x d10, dmul v3x d10),
                                 (d0, dmul v2y d10, dmul v3y d10),
                                 (d0, d0, dmul v3z d10))) /\
    (length (split box " "%char) <> 3 -> length (split box " "%char) <> 9 ->
       f_cell f' = f_cell f).
Proof.
  intros Hr. apply gro_read_ok in Hr
    as (title & nline & natoms & box & ps & vs & _ & Hn & Hp & _ & Hb & _ & _ & _ & _ & _ & Hc & _).
  exists natoms, box. rewrite Hn. simpl. rewrite Hp.
  split; [reflexivity|]. split; [exact Hb|].
  split; [intros s0 s1 s2 Hs; rewrite Hs in Hc; exact Hc|].
  split; [intros s0 s1 s2 s3 s4 s5 s6 s7 s8 Hs; rewrite Hs in Hc; exact Hc|].
  destruct (split box " "%char) as
    [|s0 [|s1 [|s2 [|s3 [|s4 [|s5 [|s6 [|s7 [|s8 [|s9 vals]]]]]]]]]];
    simpl; intros H3 H9; try (exact Hc); congruence.
Qed.

Lemma gro_read_scales `{E : Env} f tf f' tf' :
  gro_read (f, tf) = (Ok tt, (f', tf')) ->
  exists natoms vs,
    let lines := firstn (N.to_nat natoms) (skipn (S (S (tf_pos tf))) (tf_lines tf)) in
    option_map parse_size (nth_error (tf_lines tf) (S (tf_pos tf))) = Some (Some natoms) /\
    f_velocities f' = Some vs /\
    (forall i line p, nth_error lines i = Some line ->
       nth_error (f_positions f') i = Some p ->
       exists x y z,
         parse_double (substring 20 8 line) = Some x /\
         parse_double (substring 28 8 line) = Some y /\
         parse_double (substring 36 8 line) = Some z /\
         p = (dmul x d10, dmul y d10, dmul z d10)) /\
    (forall i line v, nth_error lines i = Some line -> 68 <= String.length line ->
       nth_error vs i = Some v ->
       exists x y z,
         parse_double (substring 44 8 line) = Some x /\
         parse_double (substring 52 8 line) = Some y /\
         parse_double (substring 60 8 line) = Some z /\
         v = (dmul x d10, dmul y d10, dmul z d10)).
Proof.
  intros Hr. apply gro_read_ok in Hr
    as (title & nline & natoms & box & ps & vs & _ & Hn & Hp & _ & _ & Hok & Hps & Hvs & _).
  exists natoms, vs. cbn zeta. rewrite Hn. simpl. rewrite Hp.
  apply atoms_ok_nth in Hok as (_ & _ & Hnth).
  split; [reflexivity|]. split; [exact Hvs|]. split.
  - intros i line p Hl Hp'. rewrite Hps in Hp'.
    apply Hnth in Hl as (p0 & v0 & Hp0 & _ & _ & Hxyz & _).
    rewrite Hp' in Hp0. injection Hp0 as <-. exact Hxyz.
  - intros i line v Hl Hlen Hv'.
    apply Hnth in Hl as (p0 & v0 & _ & Hv0 & _ & _ & Hvel).
    rewrite Hv' in Hv0. injection Hv0 as <-.
    apply Nat.leb_le in Hlen. rewrite Hlen in Hvel. exact Hvel.
Qed.

Lemma string_app_empty_r s : (s ++ "")%string = s.
Proof. induction s as [|c s IH]; simpl; congruence. Qed.

Lemma string_app_assoc (s1 s2 s3 : string) :
  (s1 ++ s2 ++ s3)%string = ((s1 ++ s2) ++ s3)%string.
Proof. induction s1 as [|c s1 IH]; simpl; congruence. Qed.

Lemma gro_resname_ok `{E : Env} r out ws n s' :
  gro_resname r (out, ws) = (Ok n, s') -> exists w, s' = (out, ws ++ w)%list.
Proof.
  unfold gro_resname, bind, warning, modify, ret.
  destruct r as [r|]; [destruct (Nat.ltb 5 _)|]; intros Hm; injection Hm as _ <-;
    [eexists; reflexivity | exists []; rewrite app_nil_r; reflexivity ..].
Qed.

Lemma gro_resid_ok `{E : Env} r m out ws resid m' s' :
  gro_resid r m (out, ws) = (Ok (resid, m'), s') ->
  exists w, s' = (out, ws ++ w)%list /\
    (forall rr v, r = Some rr -> res_id rr = Some v ->
       ((99999 < v)%N -> resid = "-1" /\ In W_RESIDUES w) /\
       ((v <= 99999)%N -> resid = string_of_N v)).
Proof.
  unfold gro_resid, bind, warning, modify, ret.
  destruct r as [rr|]; simpl.
  - destruct (res_id rr) as [v|] eqn:Hid.
    + destruct (v <=? 99999)%N eqn:Hv; intros Hm; injection Hm as <- _ <-.
      * exists []. rewrite app_nil_r. split; [reflexivity|].
        intros rr' v' Hr Hv'. injection Hr as <-. rewrite Hid in Hv'.
        injection Hv' as <-. apply N.leb_le in Hv. split; [lia|auto].
      * eexists. split; [reflexivity|].
        intros rr' v' Hr Hv'. injection Hr as <-. rewrite Hid in Hv'.
        injection Hv' as <-. apply N.leb_gt in Hv. split.
        -- intros _. split; [reflexivity|]. left; reflexivity.
        -- intros. lia.
    + destruct (m <=? 99999)%N; intros Hm; injection Hm as <- _ <-;
        exists []; rewrite app_nil_r; split; [reflexivity| |reflexivity|];
        intros rr' v' Hr Hv'; injection Hr as <-; congruence.
  - destruct (m <=? 99999)%N; intros Hm; injection Hm as <- _ <-;
      exists []; rewrite app_nil_r; split; [reflexivity| |reflexivity|];
      intros rr' v' Hr; discriminate Hr.
Qed.

Lemma check_values_size_ok `{E : Env} v w c (s : WSt) s' :
  check_values_size v w c s = (Ok tt, s') -> s' = s.
Proof.
  unfold check_values_size, ret, throw. destruct v as [[a b] cc].
  destruct (_ || _); intros Hm; [discriminate Hm | injection Hm as <-; reflexivity].
Qed.

Lemma to_gro_index_ok `{E : Env} i out ws idx s' :
  to_gro_index i (out, ws) = (Ok idx, s') ->
  exists w, s' = (out, ws ++ w)%list /\
    ((99999 <= i)%N -> idx = "*****" /\ In W_ATOMS w) /\
    ((i < 99999)%N -> idx = string_of_N (i + 1)).
Proof.
  unfold to_gro_index, bind, warning, modify, ret.
  destruct (99999 <=? i)%N eqn:Hi; intros Hm; injection Hm as <- <-.
  - eexists. split; [reflexivity|]. apply N.leb_le in Hi.
    split; [intros _; split; [reflexivity | left; reflexivity] | intros; lia].
  - exists []. rewrite app_nil_r. apply N.leb_gt in Hi.
    split; [reflexivity|]. split; [intros; lia | reflexivity].
Qed.

Lemma emit_ok `{E : Env} line out ws a s' :
  emit line (out, ws) = (Ok a, s') -> s' = ((out ++ [line])%list, ws).
Proof. unfold emit, modify. intros Hm. injection Hm as _ <-. reflexivity. Qed.

Ltac wprim Hm :=
  match type of Hm with
  | gro_resname _ (_, _) = _ =>
      let w := fresh "w" in destruct (gro_resname_ok _ _ _ _ _ Hm) as [w ->]; clear Hm
  | gro_resid _ _ (_, _) = (Ok ?p, _) =>
      let w := fresh "w" in let Hres := fresh "Hres" in
      destruct p; destruct (gro_resid_ok _ _ _ _ _ _ _ Hm) as (w & -> & Hres); clear Hm
  | check_values_size _ _ _ _ = (Ok ?u, _) => destruct u; apply check_values_size_ok in Hm; subst
  | to_gro_index _ (_, _) = _ =>
      let w := fresh "w" in let Hidx := fresh "Hidx" in
      destruct (to_gro_index_ok _ _ _ _ _ Hm) as (w & -> & Hidx); clear Hm
  | emit _ (_, _) = _ => apply emit_ok in Hm; subst
  end.

Ltac wrun H :=
  let a := fresh "a" in let s := fresh "s" in let Hm := fresh "Hm" in
  let e := fresh "e" in let He := fresh "He" in
  apply bind_cases in H as [(a & s & Hm & H) | (e & Hm & He)];
  [wprim Hm | discriminate He].

Lemma in_app_mono {A} (x : A) l1 l2 l3 : In x l2 -> In x (l1 ++ l2 ++ l3)%list.
Proof. intros Hx. apply in_or_app. right. apply in_or_app. left. exact Hx. Qed.

Lemma gro_write_atom_ok `{E : Env} f m i out ws m' out' ws' :
  gro_write_atom f m i (out, ws) = (Ok m', (out', ws')) ->
  exists line w, out' = (out ++ [line])%list /\ ws' = (ws ++ w)%list /\
    forall more, atom_line_written f i line (ws ++ w ++ more)%list.
Proof.
  intros Hr. unfold gro_write_atom in Hr.
  do 2 wrun Hr. cbv beta iota in Hr. wrun Hr.
  unfold atom_line_written, vel_part.
  destruct (f_velocities f) as [vs|];
    [do 3 wrun Hr | do 2 wrun Hr]; unfold ret in Hr; injection Hr as _ <- <-;
    (eexists _, _; split; [reflexivity|]; split; [rewrite <- !app_assoc; reflexivity|]);
    intros more; exists s0, a, a0;
    (split; [rewrite ?string_app_empty_r; reflexivity|]);
    destruct Hidx as [Hi1 Hi2];
    (split; [intros Hi; destruct (Hi1 Hi) as [-> Hin]; split; [reflexivity|];
             rewrite !in_app_iff; tauto|]);
    (split; [exact Hi2|]);
    intros rr v Hrr Hv; destruct (Hres rr v Hrr Hv) as [Hr1 Hr2];
    (split; [intros Hlt; destruct (Hr1 Hlt) as [-> Hin]; split; [reflexivity|];
             rewrite !in_app_iff; tauto | exact Hr2]).
Qed.

Lemma mfold_write_ok `{E : Env} f l : forall m out ws m' out' ws',
  mfold (gro_write_atom f) m l (out, ws) = (Ok m', (out', ws')) ->
  exists lines w, out' = (out ++ lines)%list /\ ws' = (ws ++ w)%list /\
    length lines = length l /\
    forall more k i, nth_error l k = Some i ->
      exists line, nth_error lines k = Some line /\
        atom_line_written f i line (ws ++ w ++ more)%list.
Proof.
  induction l as [|i l IH]; intros m out ws m' out' ws' Hr; simpl in Hr.
  - injection Hr as _ <- <-. exists [], []. rewrite !app_nil_r.
    repeat split; auto. intros more [|k] i Hk; discriminate Hk.
  - apply bind_cases in Hr as [(m1 & [out1 ws1] & Hm & Hr) | (e & _ & He)];
      [|discriminate He].
    apply gro_write_atom_ok in Hm as (line & w1 & -> & -> & Hline).
    apply IH in Hr as (lines & w' & -> & -> & Hlen & Hnth).
    exists (line :: lines), (w1 ++ w')%list.
    rewrite <- !app_assoc. repeat split; [simpl; congruence|].
    intros more [|k] j Hk; simpl in Hk.
    + injection Hk as <-. exists line. split; [reflexivity|].
      rewrite <- app_assoc. apply Hline.
    + destruct (Hnth more k j Hk) as (l' & Hl' & Hw). exists l'.
      split; [exact Hl'|]. rewrite <- !app_assoc in Hw. rewrite <- app_assoc. exact Hw.
Qed.

Lemma gro_write_box_ok `{E : Env} c out ws a s' :
  gro_write_box c (out, ws) = (Ok a, s') -> exists box, s' = ((out ++ [box])%list, ws).
Proof.
  unfold gro_write_box. intros Hr.
  destruct (cell_shape c).
  1,2: destruct (vdiv (cell_lengths c) d10) as [[x y] z];
       wrun Hr; apply emit_ok in Hr; eauto.
  destruct (cell_matrix c) as [[r0 r1] r2].
  destruct (vdiv r0 d10) as [[m00 m01] m02].
  destruct (vdiv r1 d10) as [[m10 m11] m12].
  destruct (vdiv r2 d10) as [[m20 m21] m22].
  do 2 wrun Hr. apply emit_ok in Hr. eauto.
Qed.

Lemma nth_error_seq0 n k : k < n -> nth_error (seq 0 n) k = Some k.
Proof.
  intros Hk. rewrite (nth_error_nth' _ 0); [|rewrite length_seq; exact Hk].
  rewrite seq_nth; [reflexivity|exact Hk].
Qed.

Lemma gro_write_ok `{E : Env} f out ws out' ws' :
  gro_write f (out, ws) = (Ok tt, (out', ws')) ->
  exists lines box,
    out' = (out ++ [gro_title f; pad_left 5 (string_of_N (N.of_nat (frame_size f)))]
            ++ lines ++ [box])%list /\
    length lines = frame_size f /\
    forall i, i < frame_size f ->
      exists line, nth_error lines i = Some line /\ atom_line_written f i line ws'.
Proof.
  intros Hr. unfold gro_write in Hr.
  do 2 wrun Hr.
  apply bind_cases in Hr as [(m1 & [out1 ws1] & Hm & Hr) | (e & _ & He)];
    [|discriminate He].
  apply mfold_write_ok in Hm as (lines & w & -> & -> & Hlen & Hnth).
  apply gro_write_box_ok in Hr as [box Hb]. injection Hb as -> ->.
  exists lines, box. rewrite length_seq in Hlen.
  split; [rewrite <- !app_assoc; reflexivity|]. split; [exact Hlen|].
  intros i Hi. destruct (Hnth [] i i (nth_error_seq0 _ _ Hi)) as (line & Hl & Hw).
  rewrite app_nil_r in Hw. eauto.
Qed.

Lemma errors_only_ret {S A} Pe (a : A) : errors_only (S := S) Pe (ret a).
Proof. intros s e s' Hm. discriminate Hm. Qed.

Lemma errors_only_modify {S} Pe (g : S -> S) : errors_only Pe (modify g).
Proof. intros s e s' Hm. discriminate Hm. Qed.

Lemma errors_only_bind {S A B} Pe (m : M S A) (k : A -> M S B) :
  errors_only Pe m -> (forall a, errors_only Pe (k a)) -> errors_only Pe (bind m k).
Proof.
  intros Hm Hk s e s'' Hr. apply bind_cases in Hr as [(a & s' & Ha & Hr) | (e' & Ha & He)].
  - eapply Hk; exact Hr.
  - injection He as <-. eapply Hm; exact Ha.
Qed.

Lemma errors_only_mfold {S A B} Pe (f : A -> B -> M S A) :
  (forall a b, errors_only Pe (f a b)) -> forall l a, errors_only Pe (mfold f a l).
Proof.
  intros Hf l. induction l as [|b l IH]; intros a; simpl.
  - apply errors_only_ret.
  - apply errors_only_bind; auto.
Qed.

Lemma check_values_size_errors `{E : Env} v w c :
  errors_only too_big (check_values_size v w c).
Proof.
  intros s e s' Hm. unfold check_values_size in Hm. destruct v as [[a b] cc].
  destruct (_ || _); [|discriminate Hm].
  injection Hm as <- _. eexists; reflexivity.
Qed.

Ltac eo_step :=
  match goal with
  | |- errors_only _ (bind _ _) => apply errors_only_bind; [|intro]
  | |- errors_only _ (ret _) => apply errors_only_ret
  | |- errors_only _ (modify _) => apply errors_only_modify
  | |- errors_only _ (emit _) => apply errors_only_modify
  | |- errors_only _ (warning _) => apply errors_only_modify
  | |- errors_only too_big (check_values_size _ _ _) => apply check_values_size_errors
  | |- errors_only _ (mfold _ _ _) => apply errors_only_mfold; intros
  | |- errors_only _ (let '(_, _) := ?p in _) => destruct p
  | |- errors_only _ (if ?b then _ else _) => destruct b
  | |- errors_only _ (match ?x with _ => _ end) => destruct x
  | |- errors_only _ (gro_resname _) => unfold gro_resname
  | |- errors_only _ (gro_resid _ _) => unfold gro_resid
  | |- errors_only _ (to_gro_index _) => unfold to_gro_index
  | |- errors_only _ (gro_write_atom _ _ _) => unfold gro_write_atom
  | |- errors_only _ (gro_write_box _) => unfold gro_write_box
  end.

Lemma gro_write_errors `{E : Env} f : errors_only too_big (gro_write f).
Proof. unfold gro_write. repeat eo_step. Qed.

(** C3 (amended): a successful write outputs the title, the atom count, one
    line per atom and the box line.  The atom with 0-based index 99999 or more
    (index above 99999 counted from 1) gets [*****] in its index column and a
    warning; a residue id above 99999 is written as [-1], not [*****], with a
    warning; the write fails only with a [FormatError] for a value too big for
    its column. *)
Theorem gro_write_limits `{E : Env} f out ws r out' ws' :
  gro_write f (out, ws) = (r, (out', ws')) ->
  (r = Ok tt ->
     exists lines box,
       out' = (out ++ [gro_title f; pad_left 5 (string_of_N (N.of_nat (frame_size f)))]
               ++ lines ++ [box])%list /\
       length lines = frame_size f /\
       forall i, i < frame_size f ->
         exists line, nth_error lines i = Some line /\ atom_line_written f i line ws') /\
  (forall e, r = Err e -> too_big e).
Proof.
  intros Hr. split.
  - intros ->. exact (gro_write_ok _ _ _ _ _ Hr).
  - intros e ->. exact (gro_write_errors f _ _ _ Hr).
Qed.

(** C7: reading multiplies every position and velocity component parsed from
    an atom line by 10 (nanometers to angstroms); writing divides every
    position and velocity component of the frame by 10 (angstroms to
    nanometers) before formatting it in the atom's line. *)
Theorem gro_units `{E : Env} :
  (forall f tf f' tf', gro_read (f, tf) = (Ok tt, (f', tf')) ->
     exists natoms vs,
       let lines := firstn (N.to_nat natoms) (skipn (S (S (tf_pos tf))) (tf_lines tf)) in
       option_map parse_size (nth_error (tf_lines tf) (S (tf_pos tf))) = Some (Some natoms) /\
       f_velocities f' = Some vs /\
       (forall i line p, nth_error lines i = Some line ->
          nth_error (f_positions f') i = Some p ->
          exists x y z,
            parse_double (substring 20 8 line) = Some x /\
            parse_double (substring 28 8 line) = Some y /\
            parse_double (substring 36 8 line) = Some z /\
            p = (dmul x d10, dmul y d10, dmul z d10)) /\
       (forall i line v, nth_error lines i = Some line -> 68 <= String.length line ->
          nth_error vs i = Some v ->
          exists x y z,
            parse_double (substring 44 8 line) = Some x /\
            parse_double (substring 52 8 line) = Some y /\
            parse_double (substring 60 8 line) = Some z /\
            v = (dmul x d10, dmul y d10, dmul z d10))) /\
  (forall f out ws out' ws', gro_write f (out, ws) = (Ok tt, (out', ws')) ->
     forall i, i < frame_size f ->
       exists line prefix,
         nth_error out' (length out + 2 + i) = Some line /\
         line = prefix ++ fmt_vec 3 (vdiv (nth i (f_positions f) vzero) d10) ++
                match f_velocities f with
                | Some vs => fmt_vec 4 (vdiv (nth i vs vzero) d10)
                | None => ""
                end).
Proof.
  split.
  - intros f tf f' tf' Hr. exact (gro_read_scales _ _ _ _ Hr).
  - intros f out ws out' ws' Hw i Hi.
    apply gro_write_ok in Hw as (lines & box & -> & Hlen & Hnth).
    destruct (Hnth i Hi) as (line & Hl & (resid & resname & idx & Hline & _)).
    exists line, (pad_left 5 resid ++ pad_right 5 resname ++
              pad_left 5 (atom_name (nth i (f_atoms f) (mkAtom ""))) ++ pad_left 5 idx).
    split.
    + rewrite nth_error_app2 by (simpl; lia). simpl.
      replace (length out + 2 + i - length out) with (S (S i)) by lia. simpl.
      rewrite nth_error_app1 by lia. exact Hl.
    + rewrite Hline. unfold vel_part. rewrite <- !string_app_assoc. reflexivity.
Qed.

Lemma string_length_app (a b : string) :
  String.length (a ++ b) = String.length a + String.length b.
Proof. induction a as [|c a IH]; simpl; congruence. Qed.

Lemma substring_app_l n m (a b : string) :
  n + m <= String.length a -> substring n m (a ++ b) = substring n m a.
Proof.
  revert n m. induction a as [|c a IH]; intros n m Hnm; simpl in *.
  - assert (n = 0) as -> by lia. assert (m = 0) as -> by lia.
    destruct b; reflexivity.
  - destruct n as [|n].
    + destruct m as [|m]; [reflexivity|]. simpl. f_equal. apply IH. lia.
    + apply IH. lia.
Qed.

Lemma substring_app_r n m (a b : string) :
  String.length a <= n -> substring n m (a ++ b) = substring (n - String.length a) m b.
Proof.
  revert n. induction a as [|c a IH]; intros n Hn; simpl in *.
  - rewrite Nat.sub_0_r. reflexivity.
  - destruct n as [|n]; [lia|]. apply IH. lia.
Qed.

Lemma index_column_skipped_substring (a c c' b : string) k m :
  String.length a = 15 -> String.length c = 5 -> String.length c' = 5 ->
  k + m <= 15 \/ 20 <= k ->
  substring k m (a ++ c ++ b) = substring k m (a ++ c' ++ b).
Proof.
  intros Ha Hc Hc' [Hk|Hk].
  - rewrite !substring_app_l by lia. reflexivity.
  - rewrite !substring_app_r by lia. rewrite ?Ha, ?Hc, ?Hc'.
    rewrite ?substring_app_r by lia. rewrite ?Hc, ?Hc'. reflexivity.
Qed.

Lemma gro_read_atom_index_column `{E : Env} res (a c c' b : string) s :
  String.length a = 15 -> String.length c = 5 -> String.length c' = 5 ->
  44 <= String.length (a ++ c ++ b) ->
  gro_read_atom res (a ++ c ++ b) s = gro_read_atom res (a ++ c' ++ b) s.
Proof.
  intros Ha Hc Hc' Hlen.
  assert (Hl : String.length (a ++ c ++ b) = String.length (a ++ c' ++ b))
    by (rewrite !string_length_app; congruence).
  pose proof (index_column_skipped_substring a c c' b) as Hs.
  unfold gro_read_atom. rewrite <- Hl.
  assert (Nat.ltb (String.length (a ++ c ++ b)) 44 = false) as ->
    by (apply Nat.ltb_ge; exact Hlen).
  rewrite (Hs 0 5), (Hs 5 5), (Hs 10 5), (Hs 20 8), (Hs 28 8), (Hs 36 8),
    (Hs 44 8), (Hs 52 8), (Hs 60 8) by lia.
  reflexivity.
Qed.

Lemma readline_lines : preserves same_lines readline.
Proof.
  intros t r t' Hm. unfold readline in Hm.
  destruct (nth_error _ _); injection Hm as _ <-; reflexivity.
Qed.

Lemma readlines_lines n : preserves same_lines (readlines n).
Proof.
  intros t r t' Hm. unfold readlines in Hm.
  destruct (_ <=? _)%N; injection Hm as _ <-; reflexivity.
Qed.

Lemma forward_lines `{E : Env} : preserves same_lines forward.
Proof.
  unfold forward.
  assert (Hr : forall t, same_lines t t) by reflexivity.
  assert (Ht : forall t1 t2 t3, same_lines t1 t2 -> same_lines t2 t3 -> same_lines t1 t3)
    by (unfold same_lines; congruence).
  apply preserves_bind; auto. { apply preserves_get; auto. } intros t.
  destruct (tf_eof t). { apply preserves_ret; auto. }
  apply preserves_bind; auto.
  - apply preserves_catch; auto.
    + apply preserves_bind; auto. { apply readline_lines. } intros _.
      apply preserves_bind; auto. { apply readline_lines. } intros l.
      apply preserves_bind; auto. { apply parse_size_m_pres; auto. } intros n.
      apply preserves_ret; auto.
    + intros _. apply preserves_ret; auto.
  - intros [n|]; [|apply preserves_ret; auto].
    apply preserves_catch_file; auto.
    + apply preserves_bind; auto. { apply readlines_lines. } intros _.
      apply preserves_ret; auto.
    + intros _. apply preserves_throw; auto.
Qed.

Lemma gro_scan_lines `{E : Env} fuel : preserves same_lines (gro_scan fuel).
Proof.
  assert (Hr : forall t, same_lines t t) by reflexivity.
  assert (Ht : forall t1 t2 t3, same_lines t1 t2 -> same_lines t2 t3 -> same_lines t1 t3)
    by (unfold same_lines; congruence).
  induction fuel as [|fuel IH]; simpl.
  - apply preserves_throw; auto.
  - apply preserves_bind; auto. { apply preserves_get; auto. } intros t.
    destruct (tf_eof t). { apply preserves_ret; auto. }
    apply preserves_bind; auto. { apply forward_lines. } intros b.
    apply preserves_bind; auto. intros rest. apply preserves_ret; auto.
Qed.

Lemma forward_of_read `{E : Env} f0 tf f tf1 :
  tf_eof tf = false -> (N.of_nat (length (tf_lines tf)) < 2 ^ 64)%N ->
  gro_read (f0, tf) = (Ok tt, (f, tf1)) -> forward tf = (Ok true, tf1).
Proof.
  intros Heof Hsz Hr.
  apply gro_read_ok in Hr
    as (title & nline & natoms & box & ps & vs & Hl & Hn & Hp & Hle & Hb & _ & _ & _ & _ & _ & _ & ->).
  destruct tf as [L p eof]; cbn [tf_eof tf_lines tf_pos] in *; subst eof.
  assert (Hlt : S (S p) + N.to_nat natoms < length L)
    by (apply nth_error_Some; congruence).
  cbv beta iota delta [forward get bind catch catch_file readline parse_size_m ret readlines].
  cbn [tf_eof tf_lines tf_pos]. rewrite Hl. cbv beta iota zeta. cbn [tf_lines tf_pos]. rewrite Hn. cbv beta iota zeta. rewrite Hp. cbv beta iota zeta. cbn [tf_lines tf_pos].
  assert (Hmod : ((natoms + 1) mod 2 ^ 64 = natoms + 1)%N)
    by (apply N.mod_small; lia).
  rewrite Hmod.
  assert (Hc : (N.of_nat (S (S p)) + (natoms + 1) <=? N.of_nat (length L))%N = true)
    by (apply N.leb_le; lia).
  rewrite Hc. cbv beta iota zeta. do 2 f_equal. lia.
Qed.

Lemma gro_read_seq_unfold `{E : Env} n f0 tf :
  gro_read_seq n f0 tf =
  match gro_read (f0, tf) with
  | (Err e, _) => Err e
  | (Ok _, (f, tf')) =>
      match n with
      | O => Ok [f]
      | S n' => match gro_read_seq n' f0 tf' with
                | Ok fs => Ok (f :: fs)
                | Err e => Err e
                end
      end
  end.
Proof. destruct n; reflexivity. Qed.

Lemma gro_scan_unfold `{E : Env} fuel tf :
  gro_scan (S fuel) tf =
  if tf_eof tf then (Ok [], tf)
  else match forward tf with
       | (Ok found, t1) =>
           match gro_scan fuel t1 with
           | (Ok rest, t2) => (Ok (if found then tf_pos tf :: rest else rest), t2)
           | (Err e, t2) => (Err e, t2)
           end
       | (Err e, t1) => (Err e, t1)
       end.
Proof.
  cbn [gro_scan]. unfold bind at 1, get. destruct (tf_eof tf); [reflexivity|].
  unfold bind. destruct (forward tf) as [[b|e] t1]; [|reflexivity].
  destruct (gro_scan fuel t1) as [[r|e] t2]; reflexivity.
Qed.

Lemma gro_read_ok_file `{E : Env} f0 tf f tf1 :
  gro_read (f0, tf) = (Ok tt, (f, tf1)) ->
  tf_lines tf1 = tf_lines tf /\ tf_eof tf1 = false.
Proof.
  intros Hr. apply gro_read_ok in Hr
    as (title & nline & natoms & box & ps & vs & _ & _ & _ & _ & _ & _ & _ & _ & _ & _ & _ & ->).
  auto.
Qed.

Lemma scan_finds_reads `{E : Env} f0 i : forall tf fuel fs ps tf_end,
  tf_eof tf = false -> (N.of_nat (length (tf_lines tf)) < 2 ^ 64)%N ->
  gro_read_seq i f0 tf = Ok fs ->
  gro_scan fuel tf = (Ok ps, tf_end) ->
  exists p f tf', nth_error ps i = Some p /\ nth_error fs i = Some f /\
    gro_read (f0, mkTextFile (tf_lines tf) p false) = (Ok tt, (f, tf')).
Proof.
  induction i as [|i IH]; intros tf fuel fs ps tf_end Heof Hsz Hseq Hscan;
    rewrite gro_read_seq_unfold in Hseq;
    destruct (gro_read (f0, tf)) as [[[]|e] [f tf1]] eqn:Hr; try discriminate Hseq;
    (destruct fuel as [|fuel]; [discriminate Hscan|]);
    rewrite gro_scan_unfold, Heof, (forward_of_read _ _ _ _ Heof Hsz Hr) in Hscan;
    destruct (gro_scan fuel tf1) as [[rest|e] t2] eqn:Hrest; try discriminate Hscan;
    injection Hscan as <- _;
    assert (Htf : mkTextFile (tf_lines tf) (tf_pos tf) false = tf)
      by (destruct tf; simpl in *; congruence).
  - injection Hseq as <-. exists (tf_pos tf), f, tf1. rewrite Htf. auto.
  - destruct (gro_read_seq i f0 tf1) as [fs'|e] eqn:Hs; [|discriminate Hseq].
    injection Hseq as <-.
    destruct (gro_read_ok_file _ _ _ _ Hr) as [Hl1 He1].
    rewrite <- Hl1 in Hsz.
    destruct (IH tf1 fuel fs' rest t2 He1 Hsz Hs Hrest) as (p & f' & tf' & Hp & Hf & Hrd).
    exists p, f', tf'. rewrite Hl1 in Hrd. auto.
Qed.

(** C2 (amended): for a GRO file opened by a full forward scan, whenever
    reading the steps sequentially from the start up to step [i] succeeds,
    [i < nsteps()] and [read_step(i)], the [read] at the [i]-th recorded
    position, succeeds with the frame of the sequential read.  The converse
    does not hold: see the C2 counterexample. *)
Theorem gro_read_step_sequential `{E : Env} L g i f0 fs :
  (N.of_nat (length L) < 2 ^ 64)%N ->
  gro_open L = Ok g ->
  gro_read_seq i f0 (gro_file g) = Ok fs ->
  i < gro_nsteps g /\
  exists f g', gro_read_step i g f0 = (Ok tt, f, g') /\ nth_error fs i = Some f.
Proof.
  intros Hsz Hg Hseq. unfold gro_open in Hg.
  destruct (gro_scan (S (S (length L))) (open_text L)) as [[ps|e] tf_end] eqn:Hs;
    [|discriminate Hg].
  injection Hg as <-.
  assert (Hl : tf_lines tf_end = L) by exact (gro_scan_lines _ _ _ _ Hs).
  assert (Hrw : rewind tf_end = open_text L)
    by (unfold rewind, seekg, open_text; rewrite Hl; reflexivity).
  cbn [gro_file] in Hseq. rewrite Hrw in Hseq.
  destruct (scan_finds_reads f0 i (open_text L) _ fs ps tf_end eq_refl Hsz Hseq Hs)
    as (p & f & tf' & Hp & Hf & Hrd).
  split.
  - unfold gro_nsteps. cbn [steps_positions]. apply nth_error_Some. congruence.
  - exists f, (mkGRO tf' ps). split; [|exact Hf].
    unfold gro_read_step. cbn [steps_positions gro_file]. rewrite Hp, Hrw.
    unfold seekg. cbn [open_text tf_lines]. cbn [tf_lines open_text] in Hrd.
    rewrite Hrd. reflexivity.
Qed.


(** ** Large frames *)

Lemma bind_ok {S A B} (m : M S A) (k : A -> M S B) s a s1 :
  m s = (Ok a, s1) -> bind m k s = k a s1.
Proof. intros Hm. unfold bind. rewrite Hm. reflexivity. Qed.

Lemma mfold_all_ok {S A B} (f : A -> B -> M S A) l :
  (forall a b s, In b l -> exists a' s', f a b s = (Ok a', s')) ->
  forall a s, exists a' s', mfold f a l s = (Ok a', s').
Proof.
  induction l as [|b l IH]; intros Hf a s; simpl.
  - exists a, s. reflexivity.
  - destruct (Hf a b s (or_introl eq_refl)) as (a1 & s1 & H1).
    rewrite (bind_ok _ _ _ _ _ H1). apply IH.
    intros a' b' s' Hb. apply Hf. right. exact Hb.
Qed.

Lemma nth_repeat_lt {A} (x d : A) n i : i < n -> nth i (repeat x n) d = x.
Proof.
  revert i; induction n as [|n IH]; intros [|i] Hi; simpl; try lia; auto.
  apply IH. lia.
Qed.

Lemma frame_water_atom_ok n m i s :
  i < n -> exists m' s', gro_write_atom (frame_water n) m i s = (Ok m', s').
Proof.
  intros Hi. unfold gro_write_atom, frame_water.
  cbn [f_residues f_atoms f_positions f_velocities].
  rewrite !nth_repeat_lt by exact Hi.
  destruct s as [out ws].
  unfold residue_for_atom, find, gro_resname, gro_resid, option_map, to_gro_index.
  destruct (m <=? 99999)%N, (99999 <=? N.of_nat i)%N; vm_compute; eauto.
Qed.

(** Writing [n] identical atoms always succeeds. *)
Lemma frame_water_write_ok n out ws :
  exists out' ws', gro_write (frame_water n) (out, ws) = (Ok tt, (out', ws')).
Proof.
  unfold gro_write. cbv beta iota delta [bind emit modify].
  match goal with
  | |- context [mfold ?f ?a ?l ?s] =>
      assert (Hall : forall a0 s0, exists a' s', mfold f a0 l s0 = (Ok a', s'))
        by (apply mfold_all_ok; intros a1 b s1 Hb; apply in_seq in Hb;
            apply frame_water_atom_ok; unfold frame_size, frame_water in Hb;
            cbn [f_positions] in Hb; rewrite repeat_length in Hb; lia);
      destruct (Hall a s) as (m' & [out1 ws1] & Hm); rewrite Hm
  end.
  vm_compute. eauto.
Qed.

(** C9: writing a frame puts [*****] in the atom index column of the line
    of every atom of 0-based index 99999 or more (from the 100000-th atom on,
    so in every frame of 100000 atoms or more) and emits the warning; reading an atom line never looks at its index
    column (characters 15 to 19), so a line holding [*****] there reads as
    the same line holding a number; and the line written for that atom of a
    100000-atom frame, in a one-atom step, reads back successfully. *)
Theorem gro_write_read_large_index `{E : Env} :
  (forall f out ws out' ws' i, i < frame_size f -> (99999 <= N.of_nat i)%N ->
     gro_write f (out, ws) = (Ok tt, (out', ws')) ->
     In W_ATOMS ws' /\
     exists line resid resname rest,
       nth_error out' (length out + 2 + i) = Some line /\
       line = pad_left 5 resid ++ pad_right 5 resname ++
              pad_left 5 (atom_name (nth i (f_atoms f) (mkAtom ""))) ++
              "*****" ++ rest) /\
  (forall res (a c c' b : string) s,
     String.length a = 15 -> String.length c = 5 -> String.length c' = 5 ->
     44 <= String.length (a ++ c ++ b) ->
     gro_read_atom res (a ++ c ++ b) s = gro_read_atom res (a ++ c' ++ b) s) /\
  (substring 15 5 line_big = "*****" /\
   exists f' tf', gro_read (E := QEnv) (empty_frame, open_text file_big_step) =
                    (Ok tt, (f', tf')) /\ f_atoms f' = [mkAtom "OW"]).
Proof.
  split; [|split].
  - intros f out ws out' ws' i Hi Hbig Hw.
    destruct (gro_write_ok f out ws out' ws' Hw) as (lines & box & Hout & Hlen & Hnth).
    destruct (Hnth i Hi) as (line & Hl & resid & resname & idx & Hline & Hidx & _).
    destruct (Hidx Hbig) as [Hidx' Hw'].
    split; [exact Hw'|].
    exists line, resid, resname,
      (fmt_vec 3 (vdiv (nth i (f_positions f) vzero) d10) ++ vel_part f i).
    split.
    + rewrite Hout, nth_error_app2 by lia.
      replace (length out + 2 + i - length out) with (S (S i)) by lia.
      cbn [nth_error app]. rewrite nth_error_app1 by lia. exact Hl.
    + rewrite Hline, Hidx'. reflexivity.
  - exact gro_read_atom_index_column.
  - split; [vm_compute; reflexivity|]. vm_compute. eauto.
Qed.

Lemma gro_write_read_large_index_witness :
  In W_ATOMS (snd (snd (gro_write frame_big ([], [])))).
Proof.
  destruct (frame_water_write_ok 100000 [] []) as (out' & ws' & Hw).
  unfold frame_big. rewrite Hw.
  exact (proj1 (proj1 gro_write_read_large_index (frame_water 100000) [] [] out' ws'
                  99999 ltac:(apply Nat.ltb_lt; vm_compute; reflexivity)
                  ltac:(apply N.leb_le; vm_compute; reflexivity) Hw)).
Defined.

(** ** Counterexamples and witnesses *)



(** C2 (counterexample): in [gro_bad_first], opening records 2 steps and
    [read_step(1)] succeeds, while reading sequentially fails at step 0:
    [read_step(1)] does not give what reading sequentially up to step 1
    gives. *)
Lemma gro_read_step_not_sequential :
  match gro_open gro_bad_first with
  | Ok g =>
      gro_nsteps g = 2 /\
      fst (fst (gro_read_step 1 g empty_frame)) = Ok tt /\
      gro_read_seq 1 empty_frame (gro_file g) =
        Err (FormatError "GRO Atom line is too small: 'short'")
  | Err _ => False
  end.
Proof. vm_compute. repeat split. Qed.

Lemma gro_read_step_sequential_witness :
  match gro_open gro_demo with
  | Ok g => 1 < gro_nsteps g
  | Err _ => False
  end.
Proof.
  destruct (gro_open gro_demo) as [g|e] eqn:Hg; [|vm_compute in Hg; discriminate].
  destruct (gro_read_seq 1 empty_frame (gro_file g)) as [fs|e] eqn:Hs.
  - exact (proj1 (gro_read_step_sequential gro_demo g 1 empty_frame fs
                    ltac:(vm_compute; reflexivity) Hg Hs)).
  - vm_compute in Hg. injection Hg as <-. vm_compute in Hs. discriminate.
Defined.

(** C3 (counterexample): an atom in a residue of id 100000 is written with
    [-1] in the residue id column, not [*****]; the warning is emitted and
    the write succeeds. *)
Lemma gro_write_large_resid_minus_one :
  let '(r, (out, ws)) := gro_write frame_res_big ([], []) in
  r = Ok tt /\
  nth_error out 2 = Some "   -1SOL      O    1   0.000   0.000   0.000" /\
  In W_RESIDUES ws.
Proof.
  vm_compute. split; [reflexivity|]. split; [reflexivity|]. left; reflexivity.
Qed.

Lemma gro_write_limits_witness :
  length (fst (snd (gro_write frame_res_big ([], [])))) = 4.
Proof.
  destruct (gro_write frame_res_big ([], [])) as [[[]|e] [out' ws']] eqn:Hw.
  - destruct (proj1 (gro_write_limits _ _ _ _ _ _ Hw) eq_refl)
      as (lines & box & Hout & Hlen & _).
    simpl. rewrite Hout, !length_app, Hlen. reflexivity.
  - vm_compute in Hw. discriminate.
Defined.

Lemma parser_errors_are_messages_witness :
  parse_index toks_index_bad =
    PErr (ParserError "Index selection should contain an integer") /\
  "Index selection should contain an integer" =
    "Index selection should contain an integer".
Proof.
  split; [vm_compute; reflexivity|].
  exact (proj1 (parser_errors_are_messages (dispatch_parsing_model 5)
                  toks_index_bad _) ltac:(vm_compute; reflexivity)).
Defined.

Lemma gro_read_cell_witness :
  exists a b c,
    f_cell (fst (snd (gro_read (empty_frame, open_text gro_demo)))) =
      CellLengths a b c.
Proof.
  destruct (gro_read (empty_frame, open_text gro_demo)) as [[[]|e] [f' tf']] eqn:Hr.
  - destruct (gro_read_cell _ _ _ _ Hr) as (natoms & box & Hn & Hb & H3 & _).
    vm_compute in Hn. injection Hn as <-.
    vm_compute in Hb. injection Hb as <-.
    destruct (H3 _ _ _ ltac:(vm_compute; reflexivity)) as (a & b & c & _ & _ & _ & Hc).
    exists (dmul a d10), (dmul b d10), (dmul c d10). exact Hc.
  - vm_compute in Hr. discriminate.
Defined.

Lemma gro_units_witness :
  exists x y z,
    nth_error (f_positions (fst (snd (gro_read (empty_frame, open_text gro_demo))))) 0 =
      Some (dmul x d10, dmul y d10, dmul z d10).
Proof.
  destruct (gro_read (empty_frame, open_text gro_demo)) as [[[]|e] [f' tf']] eqn:Hr.
  - destruct (proj1 gro_units _ _ _ _ Hr) as (natoms & vs & Hn & _ & Hpos & _).
    vm_compute in Hn. injection Hn as <-.
    pose proof Hr as Hr'. vm_compute in Hr'. injection Hr' as <- <-.
    destruct (Hpos 0 atom_line_demo _ ltac:(vm_compute; reflexivity) eq_refl)
      as (x & y & z & _ & _ & _ & Hp).
    exists x, y, z. rewrite <- Hp. reflexivity.
  - vm_compute in Hr. discriminate.
Defined.

Lemma gro_read_has_velocities_witness :
  exists vs,
    f_velocities (fst (snd (gro_read (empty_frame, open_text gro_demo)))) = Some vs /\
    length vs = 1.
Proof.
  destruct (gro_read (empty_frame, open_text gro_demo)) as [[[]|e] [f' tf']] eqn:Hr.
  - destruct (gro_read_has_velocities _ _ _ _ Hr) as (natoms & vs & Hn & Hv & _ & Hl & _).
    exists vs. split; [exact Hv|]. rewrite Hl.
    vm_compute in Hn. injection Hn as <-. reflexivity.
  - vm_compute in Hr. discriminate.
Defined.

(** ** The step index, the residues, the written columns, the selection
    parsers and printer, and the C API *)

Lemma forward_step `{E : Env} L p r tf' :
  p <= length L ->
  forward (mkTextFile L p false) = (r, tf') ->
  tf_lines tf' = L /\ tf_pos tf' <= length L /\
  match r with
  | Err e => e = E_LINES
  | Ok found =>
      (p < tf_pos tf' \/ (tf_pos tf' = p /\ tf_eof tf' = true)) /\
      (found = true -> step_at L p /\ tf_eof tf' = false)
  end.
Proof.
  intros Hp Hf.
  cbv beta iota delta [forward get bind catch catch_file readline parse_size_m ret
    readlines throw] in Hf.
  cbn [tf_eof tf_lines tf_pos] in Hf.
  destruct (nth_error L p) as [title|] eqn:H1; cbn [tf_lines tf_pos] in Hf.
  2: { injection Hf as <- <-. cbn. repeat split; auto; try discriminate. }
  assert (Hp1 : p < length L) by (apply nth_error_Some; congruence).
  destruct (nth_error L (S p)) as [nline|] eqn:H2.
  2: { injection Hf as <- <-. cbn. repeat split; try lia; discriminate. }
  assert (Hp2 : S p < length L) by (apply nth_error_Some; congruence).
  destruct (parse_size nline) as [n|] eqn:H3.
  2: { injection Hf as <- <-. cbn. repeat split; try lia; discriminate. }
  cbv beta iota zeta in Hf. cbn [tf_lines tf_pos] in Hf.
  destruct (N.of_nat (S (S p)) + N.modulo (n + 1) (2 ^ 64) <=? N.of_nat (length L))%N eqn:H4;
    injection Hf as <- <-; cbn.
  - apply N.leb_le in H4.
    change 18446744073709551616%N with (2 ^ 64)%N.
    assert (Hs : step_at L p) by (exists title, nline, n; auto).
    set (k := N.modulo (n + 1) (2 ^ 64)) in *. clearbody k.
    split; [reflexivity|]. split; [lia|]. split; [left; lia|].
    intros _. split; [exact Hs|reflexivity].
  - repeat split; lia.
Qed.

Lemma gro_scan_spec `{E : Env} L fuel : forall p (eof : bool) r tf',
  p <= length L -> (length L - p) + (if eof then 0 else 1) < fuel ->
  gro_scan fuel (mkTextFile L p eof) = (r, tf') ->
  match r with
  | Err e => e = E_LINES
  | Ok ps => StronglySorted lt ps /\ Forall (fun q => p <= q /\ step_at L q) ps
  end.
Proof.
  induction fuel as [|fuel IH]; intros p eof r tf' Hp Hfuel Hs; [lia|].
  rewrite gro_scan_unfold in Hs. cbn [tf_eof tf_pos] in Hs.
  destruct eof.
  { injection Hs as <- <-. split; constructor. }
  destruct (forward (mkTextFile L p false)) as [[found|e] t1] eqn:Hf.
  2: { injection Hs as <- <-. apply forward_step in Hf; [|exact Hp]. apply Hf. }
  apply forward_step in Hf; [|exact Hp].
  destruct Hf as (Hl & Hp1 & Hmv & Hfound).
  destruct t1 as [L1 p1 eof1]; cbn in Hl, Hp1, Hmv, Hfound; subst L1.
  destruct (gro_scan fuel (mkTextFile L p1 eof1)) as [[rest|e] t2] eqn:Hr;
    injection Hs as <- <-.
  - assert (Hlt : (length L - p1) + (if eof1 then 0 else 1) < fuel)
      by (destruct eof1; destruct Hmv as [Hmv|[-> Hmv]]; try discriminate; lia).
    specialize (IH p1 eof1 (Ok rest) t2 Hp1 Hlt Hr) as [Hsort Hall].
    destruct found.
    + destruct (Hfound eq_refl) as [Hstep Heof1]. subst eof1.
      destruct Hmv as [Hmv|[_ Hmv]]; [|discriminate].
      split.
      * constructor; [exact Hsort|].
        eapply Forall_impl; [|exact Hall]. cbn. lia.
      * constructor; [split; [lia|exact Hstep]|].
        eapply Forall_impl; [|exact Hall]. cbn. intros q [Hq Hsq]. split; [lia|exact Hsq].
    + split; [exact Hsort|].
      eapply Forall_impl; [|exact Hall]. cbn. intros q [Hq Hsq].
      split; [|exact Hsq]. destruct Hmv as [Hmv|[-> _]]; lia.
  - assert (Hlt : (length L - p1) + (if eof1 then 0 else 1) < fuel)
      by (destruct eof1; destruct Hmv as [Hmv|[-> Hmv]]; try discriminate; lia).
    exact (IH p1 eof1 (Err e) t2 Hp1 Hlt Hr).
Qed.

(** Opening a GRO file ([GROFormat] constructor and [forward]), on a file
    read without IO error, either fails with [FormatError "not enough lines
    in file for GRO format"] and no other error, or records step positions
    that are strictly increasing.  Each one starts a title line and a count
    line holding some [n], followed by at least [(n + 1) mod 2^64] lines:
    at least [n + 1] lines when [n < SIZE_MAX]; when [n = SIZE_MAX],
    [n + 1] wraps to 0 and no further line is required. *)
Theorem gro_open_steps `{E : Env} (lines : list string) :
  match gro_open lines with
  | Err e => e = FormatError "not enough lines in file for GRO format"
  | Ok g => StronglySorted lt (steps_positions g) /\
            Forall (step_at lines) (steps_positions g) /\
            Forall (fun p => forall nline n,
                      nth_error lines (S p) = Some nline -> parse_size nline = Some n ->
                      (n < SIZE_MAX)%N ->
                      (N.of_nat (S (S p)) + n + 1 <= N.of_nat (length lines))%N)
              (steps_positions g)
  end.
Proof.
  unfold gro_open, open_text.
  destruct (gro_scan (S (S (length lines))) (mkTextFile lines 0 false)) as [r tf] eqn:Hs.
  apply gro_scan_spec in Hs; [|lia|lia].
  destruct r as [ps|e]; [|exact Hs].
  destruct Hs as [Hsort Hall]. split; [exact Hsort|].
  assert (Hst : Forall (step_at lines) ps)
    by (eapply Forall_impl; [|exact Hall]; cbn; tauto).
  split; [exact Hst|].
  eapply Forall_impl; [|exact Hst].
  intros p (title & nline' & n' & _ & Hn' & Hp' & Hle) nline n Hn Hp Hlt.
  rewrite Hn in Hn'. injection Hn' as <-. rewrite Hp in Hp'. injection Hp' as <-.
  unfold SIZE_MAX in Hlt. rewrite N.mod_small in Hle by lia. lia.
Qed.

Lemma set_insert_in i l a : In a (set_insert i l) <-> a = i \/ In a l.
Proof.
  induction l as [|j l IH]; cbn; [intuition congruence|].
  destruct (i =? j)%N eqn:Heq; [apply N.eqb_eq in Heq; subst; cbn; intuition congruence|].
  destruct (i <? j)%N; cbn; [intuition congruence|]. rewrite IH. intuition congruence.
Qed.

Lemma residues_add_keys (P : N -> Prop) v n i m :
  Forall (fun kr => P (fst kr)) m -> P v ->
  Forall (fun kr => P (fst kr)) (residues_add v n i m).
Proof.
  induction m as [|[k r] m IH]; intros Hm Hv; cbn; [constructor; auto|].
  inversion Hm as [|? ? Hk Hm']; subst.
  destruct (v =? k)%N; [constructor; auto|].
  destruct (v <? k)%N; constructor; auto.
Qed.

Lemma residues_add_sorted v n i m :
  StronglySorted (fun a b => (fst a < fst b)%N) m ->
  StronglySorted (fun a b => (fst a < fst b)%N) (residues_add v n i m).
Proof.
  induction m as [|[k r] m IH]; intros Hs; cbn; [repeat constructor|].
  inversion Hs as [|? ? Hs' Hall]; subst.
  destruct (v =? k)%N eqn:Heq; [constructor; auto|].
  destruct (v <? k)%N eqn:Hlt.
  - apply N.ltb_lt in Hlt. constructor; [exact Hs|]. constructor; [exact Hlt|].
    eapply Forall_impl; [|exact Hall]. cbn. intros. lia.
  - apply N.eqb_neq in Heq. apply N.ltb_ge in Hlt.
    constructor; [apply IH; exact Hs'|]. apply residues_add_keys; [exact Hall|]. cbn. lia.
Qed.

Lemma residues_add_keep v n i m k r :
  In (k, r) m -> k <> v -> In (k, r) (residues_add v n i m).
Proof.
  induction m as [|[k0 r0] m IH]; intros Hin Hk; cbn in *; [tauto|].
  destruct (v =? k0)%N eqn:Heq.
  - apply N.eqb_eq in Heq. subst k0. destruct Hin as [Hin|Hin];
      [injection Hin as -> ->; tauto | right; exact Hin].
  - destruct (v <? k0)%N; [right; exact Hin|].
    destruct Hin as [Hin|Hin]; [left; exact Hin | right; auto].
Qed.

Lemma residues_add_mem v n i m :
  exists r, In (v, r) (residues_add v n i m) /\ In i (res_atoms r).
Proof.
  induction m as [|[k0 r0] m IH]; cbn.
  - eexists. split; [left; reflexivity|]. cbn. auto.
  - destruct (v =? k0)%N eqn:Heq.
    + apply N.eqb_eq in Heq. subst k0. eexists. split; [left; reflexivity|].
      cbn. apply set_insert_in. auto.
    + destruct (v <? k0)%N.
      * eexists. split; [left; reflexivity|]. cbn. auto.
      * destruct IH as (r & Hin & Hi). exists r. split; [right; exact Hin|exact Hi].
Qed.

Lemma residues_add_hit v n i m r0 :
  StronglySorted (fun a b => (fst a < fst b)%N) m -> In (v, r0) m ->
  In (v, residue_add_atom r0 i) (residues_add v n i m).
Proof.
  induction m as [|[k r] m IH]; intros Hs Hin; cbn in *; [tauto|].
  inversion Hs as [|? ? Hs' Hall]; subst.
  destruct (v =? k)%N eqn:Heq.
  - apply N.eqb_eq in Heq. subst k. left. destruct Hin as [Hin|Hin]; [congruence|].
    rewrite Forall_forall in Hall. specialize (Hall _ Hin). cbn in Hall. lia.
  - apply N.eqb_neq in Heq. destruct Hin as [Hin|Hin]; [congruence|].
    rewrite Forall_forall in Hall. pose proof (Hall _ Hin) as Hk. cbn in Hk.
    destruct (v <? k)%N eqn:Hlt; [apply N.ltb_lt in Hlt; lia|].
    right. auto.
Qed.

Lemma residues_add_in v n i m k r :
  StronglySorted (fun a b => (fst a < fst b)%N) m ->
  In (k, r) (residues_add v n i m) ->
  (k <> v /\ In (k, r) m) \/
  (k = v /\ r = mkResidue n (Some v) [i] /\ forall r0, ~ In (v, r0) m) \/
  (k = v /\ exists r0, In (v, r0) m /\ r = residue_add_atom r0 i).
Proof.
  induction m as [|[k0 r0] m IH]; intros Hs Hin; cbn in *.
  - destruct Hin as [Hin|[]]. injection Hin as <- <-. right; left. auto.
  - inversion Hs as [|? ? Hs' Hall]; subst. rewrite Forall_forall in Hall.
    destruct (v =? k0)%N eqn:Heq.
    + apply N.eqb_eq in Heq. subst k0. destruct Hin as [Hin|Hin].
      * injection Hin as <- <-. right; right. eauto.
      * pose proof (Hall _ Hin) as Hk. cbn in Hk. left. split; [lia|auto].
    + apply N.eqb_neq in Heq. destruct (v <? k0)%N eqn:Hlt.
      * apply N.ltb_lt in Hlt. destruct Hin as [Hin|Hin].
        -- injection Hin as <- <-. right; left. repeat split.
           intros r1 [Hr1|Hr1]; [congruence|].
           pose proof (Hall _ Hr1) as Hk. cbn in Hk. lia.
        -- destruct (N.eq_dec k v) as [->|Hkv].
           ++ destruct Hin as [Hin|Hin]; [congruence|].
              pose proof (Hall _ Hin) as Hk. cbn in Hk. lia.
           ++ left. auto.
      * destruct Hin as [Hin|Hin].
        -- injection Hin as <- <-. left. auto.
        -- destruct (IH Hs' Hin) as [(Hk & Hi)|[(Hk & Hr & Hno)|(Hk & r1 & Hr1 & Hr)]].
           ++ left. auto.
           ++ right; left. repeat split; auto. intros r1 [Hr1|Hr1]; [congruence|].
              exact (Hno r1 Hr1).
           ++ right; right. split; [exact Hk|]. exists r1. auto.
Qed.

Lemma nth_error_app_l {A} (l l' : list A) j x :
  nth_error l j = Some x -> nth_error (l ++ l') j = Some x.
Proof.
  intros H. rewrite nth_error_app1; [exact H|]. apply nth_error_Some. congruence.
Qed.

Lemma nth_error_app_last {A} (l : list A) x j y :
  nth_error (l ++ [x]) j = Some y ->
  (j < length l /\ nth_error l j = Some y) \/ (j = length l /\ y = x).
Proof.
  intros H. destruct (Nat.lt_ge_cases j (length l)) as [Hj|Hj].
  - left. rewrite nth_error_app1 in H; auto.
  - right. rewrite nth_error_app2 in H; [|exact Hj].
    destruct (j - length l) as [|k] eqn:Hk; cbn in H.
    + split; [lia|congruence].
    + destruct k; discriminate H.
Qed.

Lemma res_map_ok_nil `{E : Env} : res_map_ok [] [].
Proof.
  split; [constructor|]. split; [intros k r []|].
  intros i line Hl. destruct i; discriminate Hl.
Qed.

Lemma res_map_ok_step `{E : Env} ls m line :
  res_map_ok ls m ->
  res_map_ok (ls ++ [line])
    (if (resid_of line =? SIZE_MAX)%N then m
     else residues_add (resid_of line) (trim (substring 5 5 line))
            (N.of_nat (length ls)) m).
Proof.
  intros (Hs & Hkr & Hcov).
  assert (Hlift : forall k r, In (k, r) m ->
     res_id r = Some k /\ k <> SIZE_MAX /\
     (forall a, In a (res_atoms r) ->
        exists l, nth_error (ls ++ [line]) (N.to_nat a) = Some l /\ resid_of l = k) /\
     (exists j l, nth_error (ls ++ [line]) j = Some l /\ resid_of l = k /\
        res_name r = trim (substring 5 5 l) /\
        forall j' l', j' < j -> nth_error (ls ++ [line]) j' = Some l' -> resid_of l' <> k)).
  { intros k r Hin. destruct (Hkr k r Hin) as (Hid & Hmax & Hat & j & l & Hj & Hl & Hn & Hfirst).
    split; [exact Hid|]. split; [exact Hmax|]. split.
    - intros a Ha. destruct (Hat a Ha) as (l' & Hl' & Hr'). exists l'.
      split; [apply nth_error_app_l; exact Hl'|exact Hr'].
    - exists j, l. split; [apply nth_error_app_l; exact Hj|]. split; [exact Hl|].
      split; [exact Hn|]. intros j' l' Hj' Hl'.
      assert (Hjl : j < length ls) by (apply nth_error_Some; congruence).
      rewrite nth_error_app1 in Hl' by lia. exact (Hfirst j' l' Hj' Hl'). }
  destruct (resid_of line =? SIZE_MAX)%N eqn:Hmax.
  - apply N.eqb_eq in Hmax. split; [exact Hs|]. split; [exact Hlift|].
    intros i l Hl Hr. apply nth_error_app_last in Hl as [(Hi & Hl)|(-> & ->)];
      [exact (Hcov i l Hl Hr)|contradiction].
  - apply N.eqb_neq in Hmax. set (v := resid_of line) in *.
    set (name := trim (substring 5 5 line)). set (i := length ls).
    split; [apply residues_add_sorted; exact Hs|]. split.
    + intros k r Hin.
      destruct (residues_add_in _ _ _ _ _ _ Hs Hin)
        as [(_ & Hin')|[(-> & -> & Hno)|(-> & r0 & Hr0 & ->)]].
      * exact (Hlift k r Hin').
      * cbn. split; [reflexivity|]. split; [exact Hmax|]. split.
        -- intros a [<-|[]]. exists line. rewrite Nat2N.id.
           split; [rewrite nth_error_app2 by lia; rewrite Nat.sub_diag; reflexivity|reflexivity].
        -- exists i, line. split; [rewrite nth_error_app2 by lia; rewrite Nat.sub_diag; reflexivity|].
           split; [reflexivity|]. split; [reflexivity|].
           intros j' l' Hj' Hl' Hr'. rewrite nth_error_app1 in Hl' by lia.
           assert (Hne : resid_of l' <> SIZE_MAX) by congruence.
           destruct (Hcov j' l' Hl' Hne) as (r1 & Hr1 & _). rewrite Hr' in Hr1.
           exact (Hno r1 Hr1).
      * destruct (Hlift v r0 Hr0) as (Hid & _ & Hat & Hfirst). cbn.
        split; [exact Hid|]. split; [exact Hmax|]. split; [|exact Hfirst].
        intros a Ha. apply set_insert_in in Ha as [->|Ha]; [|exact (Hat a Ha)].
        exists line. rewrite Nat2N.id.
        split; [rewrite nth_error_app2 by lia; rewrite Nat.sub_diag; reflexivity|reflexivity].
    + intros j l Hl Hr. apply nth_error_app_last in Hl as [(Hj & Hl)|(-> & ->)].
      * destruct (Hcov j l Hl Hr) as (r & Hin & Hjr).
        destruct (N.eq_dec (resid_of l) v) as [Hv|Hv].
        -- rewrite Hv in Hin |- *. exists (residue_add_atom r (N.of_nat i)).
           split; [apply residues_add_hit; assumption|].
           cbn. apply set_insert_in. auto.
        -- exists r. split; [apply residues_add_keep; assumption|exact Hjr].
      * apply residues_add_mem.
Qed.

Lemma gro_read_atom_res `{E : Env} res line f tf res' f' tf' :
  gro_read_atom res line (f, tf) = (Ok res', (f', tf')) ->
  frame_size f' = S (frame_size f) /\
  res' = (if (resid_of line =? SIZE_MAX)%N then res
          else residues_add (resid_of line) (trim (substring 5 5 line))
                 (N.of_nat (frame_size f)) res).
Proof.
  intros Hr. pose proof Hr as Hr0. apply gro_read_atom_ok in Hr0 as [_ (p & v & _ & Hf')].
  assert (Hsz : frame_size f' = S (frame_size f))
    by (subst f'; unfold frame_size; cbn; rewrite length_app; cbn; lia).
  split; [exact Hsz|].
  unfold gro_read_atom, bind, ret, throw, parse_double_m, modify_frame, modify,
    get_frame, get in Hr.
  destruct (Nat.ltb (String.length line) 44); [discriminate Hr|].
  repeat (cbv beta iota zeta in Hr;
    match type of Hr with
    | context [parse_double ?s] => destruct (parse_double s); [|discriminate Hr]
    end).
  destruct (Nat.leb 68 (String.length line));
  repeat (cbv beta iota zeta in Hr;
    match type of Hr with
    | context [parse_double ?s] => destruct (parse_double s); [|discriminate Hr]
    end);
  cbn [fst snd] in Hr; unfold resid_of;
  (destruct (_ =? SIZE_MAX)%N; injection Hr as <- Hf _; [reflexivity|]);
  rewrite Hf, Hsz; f_equal; lia.
Qed.

Lemma mfold_atoms_res `{E : Env} lines : forall ls res f tf res' f' tf',
  mfold gro_read_atom res lines (f, tf) = (Ok res', (f', tf')) ->
  res_map_ok ls res -> frame_size f = length ls ->
  res_map_ok (ls ++ lines) res'.
Proof.
  induction lines as [|line lines IH]; intros ls res f tf res' f' tf' Hr Hok Hsz;
    cbn in Hr.
  - injection Hr as <- _ _. rewrite app_nil_r. exact Hok.
  - unfold bind at 1 in Hr.
    destruct (gro_read_atom res line (f, tf)) as [[a|e] [f1 tf1]] eqn:Ha;
      [|discriminate Hr].
    apply gro_read_atom_res in Ha as [Hsz1 ->].
    replace (ls ++ line :: lines)%list with ((ls ++ [line]) ++ lines)%list
      by (rewrite <- app_assoc; reflexivity).
    eapply IH; [exact Hr| |rewrite length_app, Hsz1, Hsz; cbn; lia].
    rewrite Hsz. apply res_map_ok_step. exact Hok.
Qed.

Lemma fold_add_residue_res `{E : Env} (rs : list (N * Residue)) : forall f,
  f_residues (fold_left (fun f r => frame_add_residue (snd r) f) rs f) =
  (f_residues f ++ map snd rs)%list.
Proof.
  induction rs as [|r rs IH]; intros f; cbn; [rewrite app_nil_r; reflexivity|].
  rewrite IH. cbn. rewrite <- app_assoc. reflexivity.
Qed.

Lemma res_map_nodup `{E : Env} ls m :
  res_map_ok ls m -> NoDup (map res_id (map snd m)).
Proof.
  intros (Hs & Hkr & _). revert Hkr.
  induction Hs as [|[k r] m Hs IH Hall]; intros Hkr; cbn; constructor.
  - intros Hin. apply in_map_iff in Hin as (r1 & Hr1 & Hin).
    apply in_map_iff in Hin as ([k1 r1'] & <- & Hin). cbn in Hr1.
    destruct (Hkr k r (or_introl eq_refl)) as (Hid & _).
    destruct (Hkr k1 r1' (or_intror Hin)) as (Hid1 & _).
    rewrite Forall_forall in Hall. specialize (Hall _ Hin). cbn in Hall.
    rewrite Hid, Hid1 in Hr1. injection Hr1 as Hk. lia.
  - apply IH. intros k1 r1 Hin. apply Hkr. right. exact Hin.
Qed.

(** After a successful [GROFormat::read], the frame's residues are the ones
    it kept followed by the residues built from the step: their ids are
    pairwise distinct; each residue has an id other than [SIZE_MAX], holds
    only atoms whose resid column is that id, and is named after the resname
    column of the first line with that id; every atom whose resid column is
    not [SIZE_MAX] is in the residue with that id. *)
Theorem gro_read_residues `{E : Env} f tf f' tf' :
  gro_read (f, tf) = (Ok tt, (f', tf')) ->
  exists nline natoms kept rs,
    let lines := firstn (N.to_nat natoms) (skipn (S (S (tf_pos tf))) (tf_lines tf)) in
    nth_error (tf_lines tf) (S (tf_pos tf)) = Some nline /\
    parse_size nline = Some natoms /\
    f_atoms f' = map atom_of_line lines /\
    f_residues f' = (kept ++ rs)%list /\
    NoDup (map res_id rs) /\
    (forall r, In r rs -> exists k, res_id r = Some k /\ k <> SIZE_MAX /\
       (forall a, In a (res_atoms r) ->
          exists line, nth_error lines (N.to_nat a) = Some line /\ resid_of line = k) /\
       (exists j line, nth_error lines j = Some line /\ resid_of line = k /\
          res_name r = trim (substring 5 5 line) /\
          forall j' line', j' < j -> nth_error lines j' = Some line' -> resid_of line' <> k)) /\
    (forall i line, nth_error lines i = Some line -> resid_of line <> SIZE_MAX ->
       exists r, In r rs /\ res_id r = Some (resid_of line) /\ In (N.of_nat i) (res_atoms r)).
Proof.
  intros Hr. unfold gro_read in Hr.
  ok_step Hr.
  apply catch_cases in Hm as [(Hm & _) | (e & s' & _ & Hh)];
    [|unfold throw in Hh; discriminate Hh].
  do 3 run Hm. apply parse_size_m_ok in Hm as [Hp ->].
  do 3 run Hr.
  ok_step Hr.
  destruct s as [f2 tf2].
  pose proof Hm as Hres.
  apply (mfold_atoms_res _ []) in Hres;
    [|apply res_map_ok_nil|unfold frame_size; rewrite (proj1 (gro_reset_fields _)); reflexivity].
  cbn [app] in Hres.
  prim2 Hm.
  do 2 run Hr.
  apply modify_frame_ok in Hr. cbn [fst snd] in Hr. injection Hr as Hf' _.
  destruct (fold_add_residue_fields a6 f1) as (_ & _ & Ha1 & _ & _).
  pose proof (fold_add_residue_res a6 f1) as Hr1.
  subst f'. assert (Hf1 : f_atoms f1 = f_atoms f0) by (rewrite Hfb; reflexivity).
  destruct (gro_reset_fields (frame_set "name" (PString a0) f)) as (_ & _ & R3 & _ & _).
  rewrite R3 in Hat. cbn [app] in Hat. subst a5.
  exists a2, a, (f_residues f1), (map snd a6). cbn zeta.
  split; [exact Hl0|]. split; [exact Hp|]. split; [rewrite Ha1, Hf1; exact Hat|].
  split; [exact Hr1|].
  split; [exact (res_map_nodup _ _ Hres)|].
  destruct Hres as (_ & Hkr & Hcov). split.
  - intros r Hin. apply in_map_iff in Hin as ([k r0] & <- & Hin).
    exists k. exact (Hkr k r0 Hin).
  - intros i line Hli Hnei. destruct (Hcov i line Hli Hnei) as (r & Hin & Hi).
    exists r. split; [apply in_map_iff; exists (resid_of line, r); auto|].
    split; [exact (proj1 (Hkr _ _ Hin))|exact Hi].
Qed.

Lemma spaces_length n : String.length (spaces n) = n.
Proof. induction n; cbn; congruence. Qed.

Lemma pad_left_length w s : String.length (pad_left w s) = Nat.max w (String.length s).
Proof. unfold pad_left. rewrite string_length_app, spaces_length. lia. Qed.

Lemma pad_right_length w s : String.length (pad_right w s) = Nat.max w (String.length s).
Proof. unfold pad_right. rewrite string_length_app, spaces_length. lia. Qed.

Lemma substring0_length m s : String.length (substring 0 m s) = Nat.min m (String.length s).
Proof.
  revert s. induction m as [|m IH]; intros [|c s]; cbn; auto.
Qed.

Lemma string_of_N_aux_length fuel : forall n acc k,
  1 <= k -> (n < 10 ^ N.of_nat k)%N ->
  String.length (string_of_N_aux fuel n acc) <= String.length acc + k.
Proof.
  induction fuel as [|fuel IH]; intros n acc k Hk Hn; cbn; [lia|].
  destruct (n <? 10)%N eqn:H10; cbn; [lia|].
  apply N.ltb_ge in H10.
  destruct k as [|[|k]]; [lia| |].
  - cbn in Hn. lia.
  - specialize (IH (n / 10)%N (String (ascii_of_N (48 + n mod 10)) acc) (S k)).
    cbn in IH. rewrite Nat.add_succ_r. apply IH; [lia|].
    apply N.Div0.div_lt_upper_bound.
    replace (N.of_nat (S (S k))) with (N.succ (N.of_nat (S k))) in Hn by lia.
    rewrite N.pow_succ_r' in Hn. exact Hn.
Qed.

Lemma string_of_N_length5 n : (n <= 99999)%N -> String.length (string_of_N n) <= 5.
Proof.
  intros Hn. unfold string_of_N.
  apply (string_of_N_aux_length _ n "" 5); [lia|]. cbn. lia.
Qed.

Lemma gro_resname_len `{E : Env} r s n s' :
  gro_resname r s = (Ok n, s') -> String.length n <= 5.
Proof.
  unfold gro_resname, bind, warning, modify, ret.
  destruct r as [r|]; [destruct (Nat.ltb 5 _) eqn:Hl|]; intros Hm; injection Hm as <- _.
  - rewrite substring0_length. lia.
  - apply Nat.ltb_ge in Hl. exact Hl.
  - reflexivity.
Qed.

Lemma gro_resid_len `{E : Env} r m s resid m' s' :
  gro_resid r m s = (Ok (resid, m'), s') -> String.length resid <= 5.
Proof.
  unfold gro_resid, bind, warning, modify, ret.
  destruct (option_map res_id r) as [[v|]|];
    [destruct (v <=? 99999)%N eqn:Hv | destruct (m <=? 99999)%N eqn:Hv
    | destruct (m <=? 99999)%N eqn:Hv];
    intros Hm; injection Hm as <- _ _;
    try (cbn; lia); apply string_of_N_length5; apply N.leb_le; exact Hv.
Qed.

Lemma to_gro_index_len `{E : Env} i s idx s' :
  to_gro_index i s = (Ok idx, s') -> String.length idx <= 5.
Proof.
  unfold to_gro_index, bind, warning, modify, ret.
  destruct (99999 <=? i)%N eqn:Hi; intros Hm; injection Hm as <- _; [cbn; lia|].
  apply N.leb_gt in Hi. apply string_of_N_length5. lia.
Qed.

Lemma gro_write_atom_columns `{E : Env} f m i out ws m' out' ws' :
  gro_write_atom f m i (out, ws) = (Ok m', (out', ws')) ->
  exists line, out' = (out ++ [line])%list /\ atom_line_columns f i line.
Proof.
  intros Hr. unfold gro_write_atom in Hr.
  apply bind_cases in Hr as [(rn & s1 & Hrn & Hr) | (e & _ & He)]; [|discriminate He].
  pose proof (gro_resname_len _ _ _ _ Hrn) as Lrn.
  destruct (gro_resname_ok _ _ _ _ _ Hrn) as [w1 ->].
  apply bind_cases in Hr as [([resid m1] & s2 & Hrs & Hr) | (e & _ & He)]; [|discriminate He].
  pose proof (gro_resid_len _ _ _ _ _ _ Hrs) as Lrs.
  destruct (gro_resid_ok _ _ _ _ _ _ _ Hrs) as (w2 & -> & _). cbv beta iota in Hr.
  apply bind_cases in Hr as [([] & s3 & Hc & Hr) | (e & _ & He)]; [|discriminate He].
  apply check_values_size_ok in Hc. subst s3.
  unfold atom_line_columns, vel_part.
  destruct (f_velocities f) as [vs|].
  - apply bind_cases in Hr as [([] & s4 & Hc & Hr) | (e & _ & He)]; [|discriminate He].
    apply check_values_size_ok in Hc. subst s4.
    apply bind_cases in Hr as [(idx & s5 & Hi & Hr) | (e & _ & He)]; [|discriminate He].
    pose proof (to_gro_index_len _ _ _ _ Hi) as Li.
    destruct (to_gro_index_ok _ _ _ _ _ Hi) as (w3 & -> & _).
    apply bind_cases in Hr as [(u2 & s6 & He6 & Hr) | (e & _ & He)]; [|discriminate He].
    apply emit_ok in He6. subst s6. unfold ret in Hr. injection Hr as _ <- _.
    eexists. split; [reflexivity|].
    exists (pad_left 5 resid), (pad_right 5 rn), (pad_left 5 idx).
    rewrite pad_left_length, pad_right_length, pad_left_length.
    repeat split; lia.
  - apply bind_cases in Hr as [(idx & s5 & Hi & Hr) | (e & _ & He)]; [|discriminate He].
    pose proof (to_gro_index_len _ _ _ _ Hi) as Li.
    destruct (to_gro_index_ok _ _ _ _ _ Hi) as (w3 & -> & _).
    apply bind_cases in Hr as [(u2 & s6 & He6 & Hr) | (e & _ & He)]; [|discriminate He].
    apply emit_ok in He6. subst s6. unfold ret in Hr. injection Hr as _ <- _.
    eexists. split; [reflexivity|].
    exists (pad_left 5 resid), (pad_right 5 rn), (pad_left 5 idx).
    rewrite pad_left_length, pad_right_length, pad_left_length.
    rewrite string_app_empty_r.
    repeat split; lia.
Qed.

Lemma mfold_write_columns `{E : Env} f l : forall m out ws m' out' ws',
  mfold (gro_write_atom f) m l (out, ws) = (Ok m', (out', ws')) ->
  exists lines, out' = (out ++ lines)%list /\ length lines = length l /\
    forall k i, nth_error l k = Some i ->
      exists line, nth_error lines k = Some line /\ atom_line_columns f i line.
Proof.
  induction l as [|i l IH]; intros m out ws m' out' ws' Hr; simpl in Hr.
  - injection Hr as _ <- <-. exists []. rewrite app_nil_r.
    repeat split; auto. intros [|k] i Hk; discriminate Hk.
  - apply bind_cases in Hr as [(m1 & [out1 ws1] & Hm & Hr) | (e & _ & He)];
      [|discriminate He].
    apply gro_write_atom_columns in Hm as (line & -> & Hline).
    apply IH in Hr as (lines & -> & Hlen & Hnth).
    exists (line :: lines). rewrite <- app_assoc.
    split; [reflexivity|]. split; [cbn; congruence|].
    intros [|k] j Hk; cbn in Hk.
    + injection Hk as <-. exists line. auto.
    + exact (Hnth k j Hk).
Qed.

(** Every atom line written by [GROFormat::write] is made of a resid, a
    resname and an index field of exactly five characters each, the atom
    name right-aligned on five characters and never truncated, then the
    position and velocity fields: a name longer than five characters shifts
    the index and coordinates to the right. *)
Theorem gro_write_columns `{E : Env} f out ws out' ws' :
  gro_write f (out, ws) = (Ok tt, (out', ws')) ->
  exists lines box,
    out' = (out ++ [gro_title f; pad_left 5 (string_of_N (N.of_nat (frame_size f)))]
            ++ lines ++ [box])%list /\
    length lines = frame_size f /\
    forall i line, nth_error lines i = Some line -> atom_line_columns f i line.
Proof.
  intros Hr. unfold gro_write in Hr.
  apply bind_cases in Hr as [(u & s1 & Hm & Hr) | (e & _ & He)]; [|discriminate He].
  apply emit_ok in Hm. subst s1.
  apply bind_cases in Hr as [(u' & s2 & Hm & Hr) | (e & _ & He)]; [|discriminate He].
  apply emit_ok in Hm. subst s2.
  apply bind_cases in Hr as [(m1 & [out1 ws1] & Hm & Hr) | (e & _ & He)];
    [|discriminate He].
  apply mfold_write_columns in Hm as (lines & -> & Hlen & Hnth).
  apply gro_write_box_ok in Hr as [box Hb]. injection Hb as -> _.
  exists lines, box. rewrite length_seq in Hlen.
  split; [rewrite <- !app_assoc; reflexivity|]. split; [exact Hlen|].
  intros i line Hl.
  assert (Hi : i < frame_size f) by (rewrite <- Hlen; apply nth_error_Some; congruence).
  destruct (Hnth i i (nth_error_seq0 _ _ Hi)) as (line' & Hl' & Hc).
  rewrite Hl in Hl'. injection Hl' as <-. exact Hc.
Qed.

Lemma gro_max_resid_fold `{E : Env} rs : forall m,
  (forall r v, In r rs -> res_id r = Some v -> (v < SIZE_MAX)%N) ->
  let m' := fold_left (fun m r => match res_id r with
                        | Some v => if (m <? v)%N then N.modulo (v + 1) (2 ^ 64) else m
                        | None => m
                        end) rs m in
  (m <= m')%N /\ forall r v, In r rs -> res_id r = Some v -> (v <= m')%N.
Proof.
  induction rs as [|r rs IH]; intros m Hall; cbn zeta; cbn [fold_left].
  - split; [lia|]. intros r v [].
  - set (m1 := match res_id r with
               | Some v => if (m <? v)%N then N.modulo (v + 1) (2 ^ 64) else m
               | None => m end).
    assert (Hm1 : (m <= m1)%N /\ forall v, res_id r = Some v -> (v <= m1)%N).
    { subst m1. destruct (res_id r) as [v|] eqn:Hv; [|split; [lia|discriminate]].
      pose proof (Hall r v (or_introl eq_refl) Hv) as Hlt. unfold SIZE_MAX in Hlt.
      rewrite N.mod_small by lia.
      destruct (m <? v)%N eqn:Hmv; [apply N.ltb_lt in Hmv|apply N.ltb_ge in Hmv];
        split; try lia; intros v' Hv'; injection Hv' as <-; lia. }
    destruct (IH m1 (fun r' v' Hin => Hall r' v' (or_intror Hin))) as [Hle Hin].
    split; [lia|]. intros r' v' [<-|Hr'] Hv'.
    + pose proof (proj2 Hm1 v' Hv'). lia.
    + exact (Hin r' v' Hr' Hv').
Qed.

(** The first residue id [GROFormat::write] gives to atoms without a residue
    is at least every residue id of the frame (when these ids are below
    [SIZE_MAX]), but not always above them: for ids [v] then [v + 1] it is
    [v + 1], the id of an existing residue. *)
Theorem gro_max_resid_bound `{E : Env} (residues : list Residue) :
  (forall r v, In r residues -> res_id r = Some v -> (v < SIZE_MAX)%N) ->
  (forall r v, In r residues -> res_id r = Some v -> (v <= gro_max_resid residues)%N) /\
  (forall v n1 n2 a1 a2, (1 < v)%N -> (v + 1 < SIZE_MAX)%N ->
     gro_max_resid [mkResidue n1 (Some v) a1; mkResidue n2 (Some (v + 1)%N) a2] = (v + 1)%N).
Proof.
  intros Hall. split.
  - exact (proj2 (gro_max_resid_fold residues 1%N Hall)).
  - intros v n1 n2 a1 a2 Hv Hmax. unfold gro_max_resid, SIZE_MAX in *. cbn [fold_left res_id].
    replace (1 <? v)%N with true by (symmetry; apply N.ltb_lt; lia).
    rewrite (N.mod_small (v + 1)) by lia.
    replace (v + 1 <? v + 1)%N with false by (symmetry; apply N.ltb_ge; lia).
    reflexivity.
Qed.

(** [parse<IndexExpr>] and [parse<NameExpr>] consume exactly three tokens,
    and [parse<AndExpr>], [parse<OrExpr>] and [parse<NotExpr>] consume their
    operator token and exactly the tokens their operands consume, provided
    [dispatch_parsing] does so: a successful parse leaves a suffix of the
    input, of [expr_tokens] fewer tokens. *)
Theorem parsers_consume `{E : Env} :
  consumes parse_index /\ consumes parse_name /\
  forall dispatch, consumes dispatch ->
    consumes (parse_and dispatch) /\ consumes (parse_or dispatch) /\
    consumes (parse_not dispatch).
Proof.
  split; [|split].
  - intros [|t0 [|t1 [|t2 rest]]] e rest' Hp; try discriminate Hp. cbn in Hp.
    destruct (negb _); [discriminate Hp|].
    destruct t1; try discriminate Hp. destruct (negb _); [discriminate Hp|].
    injection Hp as <- <-. exists [t0; TNum x; t2]. auto.
  - intros [|t0 [|t1 [|t2 rest]]] e rest' Hp; try discriminate Hp. cbn in Hp.
    destruct (negb _); [discriminate Hp|].
    destruct t1; try discriminate Hp; destruct (token_type t0); try discriminate Hp;
      injection Hp as <- <-; exists [t0; TIdent s; t2]; auto.
  - intros d Hd. split; [|split].
    + intros [|[ty| |] rest] e rest' Hp; try discriminate Hp.
      destruct ty; try discriminate Hp. cbn in Hp.
      destruct rest as [|t rest]; [discriminate Hp|].
      destruct (d (t :: rest)) as [rhs r1|[m|]] eqn:H1; try discriminate Hp.
      destruct r1 as [|t' r1]; [discriminate Hp|].
      destruct (d (t' :: r1)) as [lhs r2|[m|]] eqn:H2; try discriminate Hp.
      injection Hp as <- <-.
      destruct (Hd _ _ _ H1) as (p1 & Hp1 & Hl1). destruct (Hd _ _ _ H2) as (p2 & Hp2 & Hl2).
      exists (TOp AND :: p1 ++ p2)%list. rewrite Hp1, Hp2, app_assoc.
      split; [reflexivity|]. cbn. rewrite length_app. lia.
    + intros [|[ty| |] rest] e rest' Hp; try discriminate Hp.
      destruct ty; try discriminate Hp. cbn in Hp.
      destruct rest as [|t rest]; [discriminate Hp|].
      destruct (d (t :: rest)) as [rhs r1|[m|]] eqn:H1; try discriminate Hp.
      destruct r1 as [|t' r1]; [discriminate Hp|].
      destruct (d (t' :: r1)) as [lhs r2|[m|]] eqn:H2; try discriminate Hp.
      injection Hp as <- <-.
      destruct (Hd _ _ _ H1) as (p1 & Hp1 & Hl1). destruct (Hd _ _ _ H2) as (p2 & Hp2 & Hl2).
      exists (TOp OR :: p1 ++ p2)%list. rewrite Hp1, Hp2, app_assoc.
      split; [reflexivity|]. cbn. rewrite length_app. lia.
    + intros [|[ty| |] rest] e rest' Hp; try discriminate Hp.
      destruct ty; try discriminate Hp. cbn in Hp.
      destruct rest as [|t rest]; [discriminate Hp|].
      destruct (d (t :: rest)) as [ast r1|[m|]] eqn:H1; try discriminate Hp.
      injection Hp as <- <-.
      destruct (Hd _ _ _ H1) as (p1 & Hp1 & Hl1).
      exists (TOp NOT :: p1). rewrite Hp1. split; [reflexivity|]. cbn. lia.
Qed.

Lemma lines_of_nonempty s : lines_of s <> [].
Proof.
  induction s as [|c s IH]; cbn; [discriminate|].
  destruct (Ascii.eqb c _); [discriminate|]. destruct (lines_of s); [contradiction|discriminate].
Qed.

Lemma lines_of_app_nl a b :
  lines_of (a ++ String (ascii_of_nat 10) b) = (lines_of a ++ lines_of b)%list.
Proof.
  induction a as [|c a IH].
  - reflexivity.
  - cbn [append lines_of]. rewrite IH. destruct (Ascii.eqb c _); [reflexivity|].
    destruct (lines_of a) eqn:Ha; [exfalso; exact (lines_of_nonempty a Ha)|]. reflexivity.
Qed.

Lemma lines_of_app_flat a b : has_newline a = false ->
  lines_of (a ++ b) =
    match lines_of b with x :: r => (a ++ x) :: r | [] => [] end.
Proof.
  induction a as [|c a IH]; cbn; intros Ha.
  - destruct (lines_of b); reflexivity.
  - apply orb_false_iff in Ha as [Hc Ha]. rewrite Hc, IH by exact Ha.
    destruct (lines_of b) eqn:Hb; [exfalso; exact (lines_of_nonempty b Hb)|]. reflexivity.
Qed.

Lemma spaces_no_newline n : has_newline (spaces n) = false.
Proof. induction n; cbn; auto. Qed.

Lemma string_of_N_aux_no_newline fuel : forall n acc,
  has_newline acc = false -> has_newline (string_of_N_aux fuel n acc) = false.
Proof.
  induction fuel as [|fuel IH]; intros n acc Hacc; [exact Hacc|].
  change (string_of_N_aux (S fuel) n acc) with
    (if (n <? 10)%N then String (ascii_of_N (48 + N.modulo n 10)) acc
     else string_of_N_aux fuel (N.div n 10) (String (ascii_of_N (48 + N.modulo n 10)) acc)).
  assert (Hd : has_newline (String (ascii_of_N (48 + n mod 10)) acc) = false).
  { change (has_newline (String (ascii_of_N (48 + n mod 10)) acc)) with
      (Ascii.eqb (ascii_of_N (48 + n mod 10)) (ascii_of_nat 10) || has_newline acc).
    rewrite Hacc, orb_false_r.
    assert (Hlt : (n mod 10 < 10)%N) by (apply N.mod_lt; lia).
    apply Ascii.eqb_neq. intros Heq.
    apply (f_equal N_of_ascii) in Heq. rewrite N_ascii_embedding in Heq by lia.
    change (N_of_ascii (ascii_of_nat 10)) with 10%N in Heq. revert Heq. generalize (n mod 10)%N. intros x Hx. lia. }
  destruct (n <? 10)%N; [exact Hd|]. apply IH. exact Hd.
Qed.

Lemma spaces_add a b : spaces (a + b) = spaces a ++ spaces b.
Proof. induction a; cbn; congruence. Qed.

Lemma has_newline_app a b :
  has_newline (a ++ b) = has_newline a || has_newline b.
Proof. induction a as [|c a IH]; cbn; [reflexivity|]. rewrite IH, orb_assoc. reflexivity. Qed.

Lemma leaf_print_flat e delta :
  binary_nodes e = 0 -> names_ok e -> (forall a, e <> NotExpr a) ->
  has_newline (expr_print delta e) = false.
Proof.
  destruct e as [name [|]|op v|l r|l r|a]; cbn [expr_print binary_nodes names_ok];
    intros Hb Hn Hnot; try lia.
  - rewrite has_newline_app. exact Hn.
  - rewrite has_newline_app. exact Hn.
  - rewrite !has_newline_app. unfold string_of_N.
    rewrite string_of_N_aux_no_newline by reflexivity.
    destruct op; reflexivity.
  - exfalso. exact (Hnot a eq_refl).
Qed.

Lemma arrow_line_mono b b' l : arrow_line b l -> b <= b' -> arrow_line b' l.
Proof. intros (k & t & -> & Hk) Hb. exists k, t. split; [reflexivity|lia]. Qed.

Lemma print_binary_lines (head arrow P Q : string) delta k :
  has_newline head = false -> arrow = spaces k ++ "-> " ->
  forall fp rp fq rq,
  lines_of P = fp :: rp -> lines_of Q = fq :: rq ->
  lines_of (head ++ P ++ newline ++ spaces delta ++ arrow ++ Q) =
    (head ++ fp)%string :: (rp ++ (spaces (delta + k) ++ "-> " ++ fq)%string :: rq)%list.
Proof.
  intros Hh Ha fp rp fq rq HP HQ.
  rewrite string_app_assoc. change (newline ++ ?b)%string with (String (ascii_of_nat 10) b).
  rewrite lines_of_app_nl, (lines_of_app_flat head P Hh), HP.
  rewrite Ha, spaces_add, <- !string_app_assoc.
  rewrite string_app_assoc, string_app_assoc.
  rewrite (lines_of_app_flat _ Q), HQ.
  - rewrite <- !string_app_assoc. reflexivity.
  - rewrite !has_newline_app, !spaces_no_newline. reflexivity.
Qed.

(** [Expr::print(delta)] prints an expression whose names hold no line break
    on one line more than it has [and] and [or] nodes; every line after the
    first is an arrow line ["-> ..."] indented by at most [max delta 7 + 4]
    spaces, however deep the nesting. *)
Theorem expr_print_layout (e : Expr) : forall delta,
  names_ok e ->
  exists first rest,
    lines_of (expr_print delta e) = first :: rest /\
    length rest = binary_nodes e /\
    Forall (arrow_line (Nat.max delta 7 + 4)) rest.
Proof.
  induction e as [name equals|op v|l IHl r IHr|l IHl r IHr|a IHa]; intros delta Hn.
  - exists (expr_print delta (NameExpr name equals)), [].
    rewrite <- (string_app_empty_r (expr_print _ _)).
    rewrite lines_of_app_flat by (apply leaf_print_flat; [reflexivity|exact Hn|discriminate]).
    cbn [lines_of]. rewrite string_app_empty_r. auto.
  - exists (expr_print delta (IndexExpr op v)), [].
    rewrite <- (string_app_empty_r (expr_print _ _)).
    rewrite lines_of_app_flat by (apply leaf_print_flat; [reflexivity|exact I|discriminate]).
    cbn [lines_of]. rewrite string_app_empty_r. auto.
  - destruct Hn as [Hl Hr].
    destruct (IHl 7 Hl) as (fp & rp & HP & Hlp & Hap).
    destruct (IHr 7 Hr) as (fq & rq & HQ & Hlq & Haq).
    cbn [expr_print].
    rewrite (print_binary_lines "and -> " "    -> " _ _ delta 4 eq_refl eq_refl _ _ _ _ HP HQ).
    eexists _, _. split; [reflexivity|]. split.
    + rewrite length_app. cbn. lia.
    + apply Forall_app. split.
      * eapply Forall_impl; [|exact Hap]. intros x Hx. eapply arrow_line_mono; [exact Hx|lia].
      * constructor; [exists (delta + 4), fq; split; [reflexivity|lia]|].
        eapply Forall_impl; [|exact Haq]. intros x Hx. eapply arrow_line_mono; [exact Hx|lia].
  - destruct Hn as [Hl Hr].
    destruct (IHl 6 Hl) as (fp & rp & HP & Hlp & Hap).
    destruct (IHr 6 Hr) as (fq & rq & HQ & Hlq & Haq).
    cbn [expr_print].
    rewrite (print_binary_lines "or -> " "   -> " _ _ delta 3 eq_refl eq_refl _ _ _ _ HP HQ).
    eexists _, _. split; [reflexivity|]. split.
    + rewrite length_app. cbn. lia.
    + apply Forall_app. split.
      * eapply Forall_impl; [|exact Hap]. intros x Hx. eapply arrow_line_mono; [exact Hx|lia].
      * constructor; [exists (delta + 3), fq; split; [reflexivity|lia]|].
        eapply Forall_impl; [|exact Haq]. intros x Hx. eapply arrow_line_mono; [exact Hx|lia].
  - destruct (IHa 4 Hn) as (fp & rp & HP & Hlp & Hap).
    cbn [expr_print]. rewrite (lines_of_app_flat "not " _ eq_refl), HP.
    eexists _, _. split; [reflexivity|]. split; [exact Hlp|].
    eapply Forall_impl; [|exact Hap]. intros x Hx. eapply arrow_line_mono; [exact Hx|lia].
Qed.

(** [CHFL_ERROR_CATCH] and [CHFL_ERROR_GOTO] leave the instructions' state
    as they left it.  Without exception, CATCH returns [CHFL_SUCCESS], GOTO
    does not jump and [CAPI_LAST_ERROR] and the warnings are unchanged.  A
    chemfiles error of class [k] gives the status of its own class
    ([CHFL_GENERIC_ERROR] for a [ConfigurationError] or a plain [Error]),
    sets [CAPI_LAST_ERROR] to its message and sends it once to the warnings;
    another [std::exception] gives [CHFL_CXX_ERROR] and sets
    [CAPI_LAST_ERROR] without a warning.  GOTO jumps on every exception and
    updates the last error and the warnings as CATCH does. *)
Theorem chfl_error_macros {S} (instructions : S -> option Exn * S) (s : S) (c : CApi) :
  let '(status, s1, c1) := chfl_error_catch instructions s c in
  let '(to_error, s2, c2) := chfl_error_goto instructions s c in
  s1 = snd (instructions s) /\ s2 = s1 /\ c2 = c1 /\
  match fst (instructions s) with
  | None => status = CHFL_SUCCESS /\ to_error = false /\ c1 = c
  | Some (ChflExn k m) =>
      status = class_status k /\ to_error = true /\
      c1 = mkCApi m (capi_warnings c ++ [m])
  | Some (StdExn m) =>
      status = CHFL_CXX_ERROR /\ to_error = true /\ c1 = mkCApi m (capi_warnings c)
  end.
Proof.
  unfold chfl_error_catch, chfl_error_goto.
  destruct (instructions s) as [[[k m|m]|] s'];
    [destruct k|..]; cbn; repeat split.
Qed.

(** [checked_cast] never throws on a 64-bit [size_t] and returns its
    argument; with a 32-bit [size_t] it returns its argument exactly when
    it is below [2^32]. *)
Theorem checked_cast_sizes (value : N) :
  (value < 2 ^ 64)%N ->
  checked_cast SIZE_MAX value = Ok value /\
  (checked_cast (2 ^ 32 - 1) value = Ok value <-> (value < 2 ^ 32)%N).
Proof.
  intros Hv. unfold checked_cast, SIZE_MAX. split.
  - replace (2 ^ 64 - 1 <? value)%N with false by (symmetry; apply N.ltb_ge; lia).
    reflexivity.
  - destruct (2 ^ 32 - 1 <? value)%N eqn:H32.
    + apply N.ltb_lt in H32. split; [discriminate|lia].
    + apply N.ltb_ge in H32. split; [lia|reflexivity].
Qed.

Lemma find_filter_same {A} (p q : A -> bool) l :
  (forall x, p x = true -> q x = true) -> find p (filter q l) = find p l.
Proof.
  intros Hpq. induction l as [|x l IH]; cbn; [reflexivity|].
  destruct (q x) eqn:Hq; cbn.
  - destruct (p x); [reflexivity|exact IH].
  - destruct (p x) eqn:Hp; [rewrite (Hpq x Hp) in Hq; discriminate|exact IH].
Qed.

(** Whatever its outcome, [GROFormat::read] changes no property of the frame
    other than ["name"]. *)
Theorem gro_read_keeps_properties `{E : Env} f tf r f' tf' key :
  gro_read (f, tf) = (r, (f', tf')) -> key <> "name" ->
  frame_get key f' = frame_get key f.
Proof.
  intros Hr Hk.
  destruct (nth_error (tf_lines tf) (tf_pos tf)) as [title|] eqn:Ht.
  - rewrite (frame_get_props _ _ _ (gro_read_name _ _ _ _ _ _ Hr Ht)).
    unfold frame_get, frame_set. cbn [f_properties find fst].
    replace (String.eqb "name" key) with false
      by (symmetry; apply String.eqb_neq; congruence).
    rewrite find_filter_same; [reflexivity|].
    intros [k v] Hkv. cbn in *. apply String.eqb_eq in Hkv. subst k.
    apply negb_true_iff, String.eqb_neq. exact Hk.
  - destruct (gro_read_no_title _ _ _ _ _ Hr Ht) as [_ ->]. reflexivity.
Qed.

(** ** Witnesses of the further properties *)

Lemma gro_read_residues_witness :
  exists kept rs,
    f_residues (fst (snd (gro_read (empty_frame, open_text gro_res_demo)))) =
      (kept ++ rs)%list /\
    NoDup (map res_id rs) /\
    (exists r, In r rs /\ res_id r = Some 1%N /\ In 0%N (res_atoms r)) /\
    (exists r, In r rs /\ res_id r = Some 2%N /\ In 2%N (res_atoms r)).
Proof.
  destruct (gro_read (empty_frame, open_text gro_res_demo)) as [[[]|e] [f' tf']] eqn:Hr.
  - destruct (gro_read_residues _ _ _ _ Hr)
      as (nline & natoms & kept & rs & Hn & Hp & _ & Hres & Hnd & _ & Hcov).
    vm_compute in Hn. injection Hn as <-. vm_compute in Hp. injection Hp as <-.
    exists kept, rs. cbn [fst snd]. split; [exact Hres|]. split; [exact Hnd|]. split.
    + apply (Hcov 0 "    1SOL     OW    1   0.126   1.624   1.679");
        [vm_compute; reflexivity|vm_compute; discriminate].
    + apply (Hcov 2 "    2SOL     OW    3   0.226   1.624   1.679");
        [vm_compute; reflexivity|vm_compute; discriminate].
  - vm_compute in Hr. discriminate.
Defined.

Lemma gro_write_columns_witness :
  exists line, nth_error (fst (snd (gro_write frame_one ([], [])))) 2 = Some line /\
    atom_line_columns frame_one 0 line.
Proof.
  destruct (gro_write frame_one ([], [])) as [[[]|e] [out ws]] eqn:Hw.
  - destruct (gro_write_columns _ _ _ _ _ Hw) as (lines & box & Hout & Hlen & Hcol).
    vm_compute in Hlen.
    destruct lines as [|line [|l2 lines]]; try discriminate Hlen.
    exists line. cbn [fst snd]. rewrite Hout. split; [reflexivity|].
    apply Hcol. reflexivity.
  - vm_compute in Hw. discriminate.
Defined.

Lemma gro_max_resid_bound_witness :
  (4 <= gro_max_resid [mkResidue "A" (Some 4%N) [0%N]; mkResidue "B" (Some 5%N) [1%N]])%N /\
  gro_max_resid [mkResidue "A" (Some 4%N) [0%N]; mkResidue "B" (Some 5%N) [1%N]] = 5%N.
Proof.
  destruct (gro_max_resid_bound (E := QEnv)
              [mkResidue "A" (Some 4%N) [0%N]; mkResidue "B" (Some 5%N) [1%N]]) as [H1 H2].
  - intros r v [<-|[<-|[]]] Hv; injection Hv as <-; unfold SIZE_MAX; lia.
  - split.
    + apply (H1 (mkResidue "A" (Some 4%N) [0%N])); [left; reflexivity|reflexivity].
    + apply (H2 4%N); unfold SIZE_MAX; lia.
Defined.

Lemma checked_cast_sizes_witness :
  checked_cast SIZE_MAX (2 ^ 40) = Ok (2 ^ 40)%N /\
  checked_cast (2 ^ 32 - 1) (2 ^ 40) <> Ok (2 ^ 40)%N.
Proof.
  destruct (checked_cast_sizes (2 ^ 40)) as [H1 H2]; [lia|].
  split; [exact H1|]. rewrite H2. lia.
Defined.

Lemma expr_print_layout_witness :
  exists first rest,
    lines_of (expr_print 0 (AndExpr (AndExpr (NameExpr "O" true) (IndexExpr OpLT 5))
                                    (NotExpr (OrExpr (NameExpr "H" false)
                                                     (IndexExpr OpGE 2))))) =
      first :: rest /\ length rest = 3 /\ Forall (arrow_line 11) rest.
Proof.
  destruct (expr_print_layout
              (AndExpr (AndExpr (NameExpr "O" true) (IndexExpr OpLT 5))
                       (NotExpr (OrExpr (NameExpr "H" false) (IndexExpr OpGE 2)))) 0)
    as (first & rest & H1 & H2 & H3).
  - cbn. repeat split.
  - exists first, rest. split; [exact H1|]. split; [exact H2|exact H3].
Defined.

Lemma gro_read_keeps_properties_witness :
  frame_get "author"
    (fst (snd (gro_read (frame_set "author" (PString "me") empty_frame, open_text gro_demo))))
  = Some (PString "me").
Proof.
  destruct (gro_read (frame_set "author" (PString "me") empty_frame, open_text gro_demo))
    as [r [f' tf']] eqn:Hr.
  cbn [fst snd]. rewrite (gro_read_keeps_properties _ _ _ _ _ "author" Hr); [|discriminate].
  apply frame_get_set.
Defined.

Lemma parsers_consume_witness :
  exists pre,
    [TOp NOT; TOp EQ; TIdent "O"; TIdent "name"; TOp AND] = (pre ++ [TOp AND])%list /\
    length pre = expr_tokens (NotExpr (NameExpr "O" true)).
Proof.
  destruct (parsers_consume (E := QEnv)) as (_ & Hname & Hbool).
  destruct (Hbool parse_name Hname) as (_ & _ & Hnot).
  apply (Hnot _ (NotExpr (NameExpr "O" true)) [TOp AND]). vm_compute. reflexivity.
Defined.
